(** * Filter-expression-to-SQL compiler of the postgres storage backend

    A shallow embedding of [addFilterExpressionToQuery] (package [postgres])
    and the properties of the query fragment and the argument list it
    builds.

    The Go function receives two pointers, [query *string] and
    [args *[]interface{}], appends to both in place and returns an [error].
    Since the writes through the pointers stay visible to the caller when
    the function returns an error, the embedding returns the final contents
    of both buffers together with the error value, on every path. *)

From Stdlib Require Import String Ascii List Arith Lia Bool.
From Stdlib Require Import DecimalString DecimalNat.
Import ListNotations.
Open Scope list_scope.
Open Scope string_scope.

(** ** Helpers of the Go standard library used by the function *)

(** [strings.Join(elems, sep)]. *)
Definition strings_Join (elems : list string) (sep : string) : string :=
  String.concat sep elems.

(** [fmt.Sprintf("%d", n)] for a non-negative [int]: the decimal digits of
    [n], without sign or padding. *)
Definition fmt_d (n : nat) : string :=
  NilEmpty.string_of_uint (Nat.to_uint n).

(** [fmt.Sprintf("$%d", n)]. *)
Definition Sprintf_dollar_d (n : nat) : string := "$" ++ fmt_d n.

(** [fmt.Sprintf("%v", fields)] for a [[]string]: the elements separated by
    single spaces, between square brackets. *)
Definition fmt_v_strings (fields : list string) : string :=
  "[" ++ String.concat " " fields ++ "]".

(** A Go [error] built by [fmt.Errorf] is represented by its message. *)
Definition error : Type := string.

(** [fmt.Errorf("unsupported equals filter: %v", expr.Fields)]. *)
Definition Errorf_unsupported_equals (fields : list string) : error :=
  "unsupported equals filter: " ++ fmt_v_strings fields.

(** [fmt.Errorf("unsupported filter expression: %T", expr)]; [%T] prints the
    name of the dynamic type of [expr]. *)
Definition Errorf_unsupported_expression (dynamic_type : string) : error :=
  "unsupported filter expression: " ++ dynamic_type.

Section Postgres.

(** The type of the values bound to placeholders ([interface{}] in the
    argument list). The compiler never inspects them. *)
Variable scalar : Type.

(** The package-level constants [schemaName] and [recordsTableName] are
    declared in another file of package [postgres]; the compiler only
    concatenates them, so they are taken as parameters. *)
Variable schemaName : string.
Variable recordsTableName : string.

(** ** Data model *)

(** Modelled from the spec: the declarations of package [storage] are not
    part of the sources at hand. [storage.FilterExpression] is an interface;
    the type switch of the compiler names three implementations, [And] and
    [Or] (ordered sequences of children) and [Equals] (a field path and a
    value). Every other dynamic type that can reach the [default] arm of the
    type switch (the nil interface value included, which [%T] prints as
    [<nil>]) is [OtherFilterExpression], carrying the type name that [%T]
    prints. *)
#[warnings="-register-all"]
Inductive FilterExpression : Type :=
| AndFilterExpression (subexprs : list FilterExpression)
| OrFilterExpression (subexprs : list FilterExpression)
| EqualsFilterExpression (Fields : list string) (Value : scalar)
| OtherFilterExpression (dynamic_type : string).

(** The two buffers the function writes through its pointer arguments. *)
Record buffers : Type := Buffers {
  query : string;
  args : list scalar
}.

(** [*query += s]. *)
Definition append_query (b : buffers) (s : string) : buffers :=
  {| query := query b ++ s; args := args b |}.

(** [*args = append( *args, v)]. *)
Definition append_arg (b : buffers) (v : scalar) : buffers :=
  {| query := query b; args := (args b ++ [v])%list |}.

(** ** The compiler *)

(** The [for i, subexpr := range subexprs] loop of the closure
    [compoundExpression]. [rec] is the recursive call
    [addFilterExpressionToQuery(query, args, subexpr)]; [i] is the index of
    the head of [subexprs]. *)
Definition compound_loop
    (rec : buffers -> FilterExpression -> buffers * option error)
    (op : string) :=
  fix loop (i : nat) (subexprs : list FilterExpression) (b : buffers)
      {struct subexprs} : buffers * option error :=
    match subexprs with
    | [] => (b, None)
    | subexpr :: rest =>
        let b1 := if (0 <? i)%nat then append_query b (" " ++ op ++ " ") else b in
        match rec b1 subexpr with
        | (b2, Some err) => (b2, Some err)
        | (b2, None) => loop (S i) rest b2
        end
    end.

(** The closure [compoundExpression], with the recursive call as a
    parameter. *)
Definition compoundExpression
    (rec : buffers -> FilterExpression -> buffers * option error)
    (b : buffers) (subexprs : list FilterExpression) (op : string)
    : buffers * option error :=
  let b0 := append_query b "( " in
  match compound_loop rec op 0 subexprs b0 with
  | (b1, Some err) => (b1, Some err)
  | (b1, None) => (append_query b1 " )", None)
  end.

(** One matched arm of the inner switch: the qualified column, the
    comparison operator, the next placeholder, then the value. The
    placeholder is formatted before the value is appended, so its index is
    [len( *args)+1] of the list as it was. *)
Definition equals_arm (b : buffers) (column_and_op : string) (v : scalar)
    : buffers * option error :=
  let b1 := append_query b
              (schemaName ++ "." ++ recordsTableName ++ column_and_op
                 ++ Sprintf_dollar_d (length (args b) + 1)) in
  (append_arg b1 v, None).

Fixpoint addFilterExpressionToQuery (b : buffers) (expr : FilterExpression)
    {struct expr} : buffers * option error :=
  match expr with
  | AndFilterExpression subexprs =>
      compoundExpression addFilterExpressionToQuery b subexprs "AND"
  | OrFilterExpression subexprs =>
      compoundExpression addFilterExpressionToQuery b subexprs "OR"
  | EqualsFilterExpression Fields Value =>
      let key := strings_Join Fields "." in
      if key =? "type" then equals_arm b ".type = " Value
      else if key =? "id" then equals_arm b ".id = " Value
      else if key =? "$index" then equals_arm b ".index_cidr >>= " Value
      else (b, Some (Errorf_unsupported_equals Fields))
  | OtherFilterExpression dynamic_type =>
      (b, Some (Errorf_unsupported_expression dynamic_type))
  end.

(** ** Specification-side notions *)

(** The supported lookup keys of the inner switch. *)
Definition supported_key (key : string) : bool :=
  (key =? "type") || (key =? "id") || (key =? "$index").

(** The leaves of a tree: its [Equals] nodes and its nodes of any other
    variant. *)
Inductive leaf : Type :=
| LeafEquals (Fields : list string) (Value : scalar)
| LeafOther (dynamic_type : string).

(** The leaves in pre-order (depth first, children left to right). *)
Fixpoint leaves (expr : FilterExpression) : list leaf :=
  match expr with
  | AndFilterExpression subexprs => flat_map leaves subexprs
  | OrFilterExpression subexprs => flat_map leaves subexprs
  | EqualsFilterExpression Fields Value => [LeafEquals Fields Value]
  | OtherFilterExpression dynamic_type => [LeafOther dynamic_type]
  end.

(** The error a leaf raises when the compiler reaches it, if any. *)
Definition leaf_error (x : leaf) : option error :=
  match x with
  | LeafEquals Fields _ =>
      if supported_key (strings_Join Fields ".") then None
      else Some (Errorf_unsupported_equals Fields)
  | LeafOther dynamic_type =>
      Some (Errorf_unsupported_expression dynamic_type)
  end.

(** The error of the first leaf that raises one. *)
Fixpoint first_failure (xs : list leaf) : option error :=
  match xs with
  | [] => None
  | x :: rest =>
      match leaf_error x with
      | Some err => Some err
      | None => first_failure rest
      end
  end.

(** The value of a leaf, when it is an [Equals] node. *)
Definition leaf_values (x : leaf) : list scalar :=
  match x with
  | LeafEquals _ Value => [Value]
  | LeafOther _ => []
  end.

(** The values of the [Equals] nodes of a tree, in pre-order. *)
Definition values_in_preorder (expr : FilterExpression) : list scalar :=
  flat_map leaf_values (leaves expr).

(** [b'] is [b] with text appended to the query and values appended to the
    argument list. *)
Definition extends (b b' : buffers) : Prop :=
  exists (frag : string) (news : list scalar),
    query b' = query b ++ frag /\ args b' = (args b ++ news)%list.

(** The children of a compound node compiled one after the other, each
    from an empty query and from the argument list its predecessors left:
    the fragments they emit and the final argument list, when all of them
    succeed. *)
Fixpoint compile_children (a : list scalar) (children : list FilterExpression)
    : option (list string * list scalar) :=
  match children with
  | [] => Some ([], a)
  | child :: rest =>
      match addFilterExpressionToQuery (Buffers "" a) child with
      | (b', None) =>
          match compile_children (args b') rest with
          | Some (frags, a') => Some (query b' :: frags, a')
          | None => None
          end
      | (_, Some _) => None
      end
  end.

(** [q] put in front of the query of [b]. *)
Definition frame (q : string) (b : buffers) : buffers :=
  {| query := q ++ query b; args := args b |}.

(** Every fragment preceded by the separator. *)
Fixpoint prefixed (sep : string) (frags : list string) : string :=
  match frags with
  | [] => ""
  | frag :: rest => sep ++ frag ++ prefixed sep rest
  end.

(** *** Placeholders of a query text

    A placeholder is a ['$'] followed by decimal digits, read greedily; its
    index is the number the digits denote. A ['$'] that no digit follows is
    not a placeholder. *)

(** The value of a decimal digit; the digits are the characters of codes
    48 to 57. *)
Definition digit_of_ascii (c : ascii) : option nat :=
  let code := nat_of_ascii c in
  if ((48 <=? code) && (code <=? 57))%nat then Some (code - 48) else None.

(** State of the scan: outside a placeholder, just after a ['$'], or inside
    the digits of a placeholder whose value so far is [n]. *)
Inductive scan_state : Type :=
| Idle
| Dollar
| Number (n : nat).

Definition flush (st : scan_state) : list nat :=
  match st with
  | Number n => [n]
  | Idle | Dollar => []
  end.

Fixpoint scan (st : scan_state) (text : string) : list nat :=
  match text with
  | EmptyString => flush st
  | String c rest =>
      match digit_of_ascii c with
      | Some d =>
          match st with
          | Idle => scan Idle rest
          | Dollar => scan (Number d) rest
          | Number n => scan (Number (d + 10 * n)) rest
          end
      | None =>
          (flush st ++ scan (if (c =? "$")%char then Dollar else Idle) rest)%list
      end
  end.

(** The indices of the placeholders of [text], in the order they occur. *)
Definition placeholders (text : string) : list nat := scan Idle text.

(** [s] has no ['$']. *)
Fixpoint dollar_free (s : string) : bool :=
  match s with
  | EmptyString => true
  | String c rest => negb (c =? "$")%char && dollar_free rest
  end.

(** [rest] does not start with a digit, so that a placeholder ending just
    before it ends there. *)
Definition no_leading_digit (rest : string) : Prop :=
  match rest with
  | EmptyString => True
  | String c _ => digit_of_ascii c = None
  end.

(** The placeholders of [frag] are [ns], whatever text without a leading
    digit follows it. *)
Definition emits (frag : string) (ns : list nat) : Prop :=
  forall rest, no_leading_digit rest ->
    scan Idle (frag ++ rest) = (ns ++ scan Idle rest)%list.

(** [s] has a ['.'], the separator of the segments of a field path. *)
Fixpoint has_dot (s : string) : bool :=
  match s with
  | EmptyString => false
  | String c rest => (c =? ".")%char || has_dot rest
  end.

(** [rec] appends the values of [e], in pre-order, when it succeeds on it. *)
Definition appends_values
    (rec : buffers -> FilterExpression -> buffers * option error)
    (e : FilterExpression) : Prop :=
  forall b b', rec b e = (b', None) ->
    args b' = (args b ++ values_in_preorder e)%list.

(** What [rec] does on [e] does not depend on the text already in the
    query. *)
Definition framed
    (rec : buffers -> FilterExpression -> buffers * option error)
    (e : FilterExpression) : Prop :=
  forall q b, rec (frame q b) e = (frame q (fst (rec b e)), snd (rec b e)).

(** The placeholders a successful compilation emits count on from the
    arguments already there, one for each value of the tree. *)
Definition emits_placeholders (e : FilterExpression) : Prop :=
  forall a b', addFilterExpressionToQuery (Buffers "" a) e = (b', None) ->
    emits (query b')
          (seq (S (length a)) (length (values_in_preorder e))).

(** The leaves the compiler gets through: the longest prefix of [xs] in
    which no leaf raises an error. *)
Fixpoint compiled_prefix (xs : list leaf) : list leaf :=
  match xs with
  | [] => []
  | x :: rest =>
      match leaf_error x with
      | Some _ => []
      | None => x :: compiled_prefix rest
      end
  end.

(** The tree with every value replaced by its image under [f]; the shape
    and the field paths are kept. *)
Fixpoint map_values (f : scalar -> scalar) (expr : FilterExpression)
    : FilterExpression :=
  match expr with
  | AndFilterExpression subexprs =>
      AndFilterExpression (map (map_values f) subexprs)
  | OrFilterExpression subexprs =>
      OrFilterExpression (map (map_values f) subexprs)
  | EqualsFilterExpression Fields Value =>
      EqualsFilterExpression Fields (f Value)
  | OtherFilterExpression dynamic_type => OtherFilterExpression dynamic_type
  end.

(** The buffers with every argument replaced by its image under [f]. *)
Definition map_args (f : scalar -> scalar) (b : buffers) : buffers :=
  {| query := query b; args := map f (args b) |}.

(** [s] has no parenthesis. *)
Fixpoint paren_free (s : string) : bool :=
  match s with
  | EmptyString => true
  | String c rest =>
      negb (c =? "(")%char && negb (c =? ")")%char && paren_free rest
  end.

(** The number of parentheses left open after reading [s] with [d] of them
    open before it; [None] when a closing parenthesis has no opening one. *)
Fixpoint paren_depth (d : nat) (s : string) : option nat :=
  match s with
  | EmptyString => Some d
  | String c rest =>
      if (c =? "(")%char then paren_depth (S d) rest
      else if (c =? ")")%char then
        match d with
        | 0 => None
        | S d' => paren_depth d' rest
        end
      else paren_depth d rest
  end.

(** Reading [frag] never closes a parenthesis it did not open, and leaves
    [k] of its own open. *)
Definition opens (frag : string) (k : nat) : Prop :=
  forall d, paren_depth d frag = Some (d + k).

(** What [rec] appends to the query on [e] opens [k] parentheses of its own,
    none when it succeeds. *)
Definition opens_on
    (rec : buffers -> FilterExpression -> buffers * option error)
    (e : FilterExpression) : Prop :=
  forall b, exists frag k,
    query (fst (rec b e)) = query b ++ frag /\
    opens frag k /\
    (snd (rec b e) = None -> k = 0).

(** ** Induction over trees *)

Section FilterExpression_induction.

Variable P : FilterExpression -> Prop.
Hypothesis P_And : forall subexprs,
  Forall P subexprs -> P (AndFilterExpression subexprs).
Hypothesis P_Or : forall subexprs,
  Forall P subexprs -> P (OrFilterExpression subexprs).
Hypothesis P_Equals : forall Fields Value,
  P (EqualsFilterExpression Fields Value).
Hypothesis P_Other : forall dynamic_type,
  P (OtherFilterExpression dynamic_type).

Fixpoint FilterExpression_tree_ind (expr : FilterExpression) : P expr :=
  let fix children (l : list FilterExpression) : Forall P l :=
    match l with
    | [] => Forall_nil P
    | x :: rest => Forall_cons x (FilterExpression_tree_ind x) (children rest)
    end in
  match expr with
  | AndFilterExpression subexprs => P_And subexprs (children subexprs)
  | OrFilterExpression subexprs => P_Or subexprs (children subexprs)
  | EqualsFilterExpression Fields Value => P_Equals Fields Value
  | OtherFilterExpression dynamic_type => P_Other dynamic_type
  end.

End FilterExpression_induction.

(** ** Unfolding equations *)

Local Abbreviation compile := addFilterExpressionToQuery.

Lemma compile_And b subexprs :
  compile b (AndFilterExpression subexprs)
  = compoundExpression compile b subexprs "AND".
Proof. reflexivity. Qed.

Lemma compile_Or b subexprs :
  compile b (OrFilterExpression subexprs)
  = compoundExpression compile b subexprs "OR".
Proof. reflexivity. Qed.

Lemma compound_loop_nil rec op i b :
  compound_loop rec op i [] b = (b, None).
Proof. reflexivity. Qed.

Lemma compound_loop_cons rec op i subexpr rest b :
  compound_loop rec op i (subexpr :: rest) b
  = match rec (if (0 <? i)%nat then append_query b (" " ++ op ++ " ") else b)
            subexpr with
    | (b2, Some err) => (b2, Some err)
    | (b2, None) => compound_loop rec op (S i) rest b2
    end.
Proof. reflexivity. Qed.

(** ** The buffers only grow *)

Lemma extends_refl b : extends b b.
Proof.
  exists "", []. split.
  - induction (query b) as [|c s IH]; simpl; congruence.
  - now rewrite app_nil_r.
Qed.

Lemma string_app_assoc (s1 s2 s3 : string) :
  (s1 ++ s2) ++ s3 = s1 ++ s2 ++ s3.
Proof. induction s1 as [|c s IH]; simpl; congruence. Qed.

Lemma string_app_nil_r (s : string) : s ++ "" = s.
Proof. induction s as [|c s IH]; simpl; congruence. Qed.

Lemma extends_trans b1 b2 b3 : extends b1 b2 -> extends b2 b3 -> extends b1 b3.
Proof.
  intros (f1 & n1 & Hq1 & Ha1) (f2 & n2 & Hq2 & Ha2).
  exists (f1 ++ f2), (n1 ++ n2)%list. split.
  - now rewrite Hq2, Hq1, string_app_assoc.
  - now rewrite Ha2, Ha1, <- app_assoc.
Qed.

Lemma extends_append_query b s : extends b (append_query b s).
Proof. exists s, []. simpl. now rewrite app_nil_r. Qed.

Lemma extends_append_arg b v : extends b (append_arg b v).
Proof. exists "", [v]. simpl. now rewrite string_app_nil_r. Qed.

Lemma equals_arm_extends b col v : extends b (fst (equals_arm b col v)).
Proof.
  unfold equals_arm. simpl.
  eapply extends_trans; [apply extends_append_query | apply extends_append_arg].
Qed.

Lemma compound_loop_extends rec op subexprs :
  Forall (fun e => forall b, extends b (fst (rec b e))) subexprs ->
  forall i b, extends b (fst (compound_loop rec op i subexprs b)).
Proof.
  induction 1 as [|e rest He _ IH]; intros i b.
  - apply extends_refl.
  - rewrite compound_loop_cons.
    set (b1 := if (0 <? i)%nat then _ else b).
    assert (H1 : extends b b1).
    { subst b1. destruct (0 <? i)%nat;
        [apply extends_append_query | apply extends_refl]. }
    specialize (He b1). destruct (rec b1 e) as [b2 [err|]]; simpl in *.
    + eapply extends_trans; eassumption.
    + eapply extends_trans; [exact H1|].
      eapply extends_trans; [exact He | apply IH].
Qed.

Lemma compoundExpression_extends rec op subexprs b :
  Forall (fun e => forall b, extends b (fst (rec b e))) subexprs ->
  extends b (fst (compoundExpression rec b subexprs op)).
Proof.
  intros H. unfold compoundExpression.
  pose proof (compound_loop_extends rec op subexprs H 0 (append_query b "( "))
    as Hl.
  destruct (compound_loop rec op 0 subexprs (append_query b "( "))
    as [b1 [err|]]; simpl in *.
  - eapply extends_trans; [apply extends_append_query | exact Hl].
  - eapply extends_trans; [apply extends_append_query |].
    eapply extends_trans; [exact Hl | apply extends_append_query].
Qed.

Lemma compile_extends expr : forall b, extends b (fst (compile b expr)).
Proof.
  induction expr as [l IH|l IH|f v|t] using FilterExpression_tree_ind;
    intros b.
  - rewrite compile_And. now apply compoundExpression_extends.
  - rewrite compile_Or. now apply compoundExpression_extends.
  - simpl.
    repeat match goal with
           | |- context [if ?c then _ else _] => destruct c
           end;
      try apply equals_arm_extends; apply extends_refl.
  - apply extends_refl.
Qed.

(** ** The error is that of the first failing leaf *)

Lemma first_failure_app xs ys :
  first_failure (xs ++ ys)
  = match first_failure xs with
    | Some err => Some err
    | None => first_failure ys
    end.
Proof.
  induction xs as [|x xs IH]; simpl; [reflexivity|].
  destruct (leaf_error x); [reflexivity | exact IH].
Qed.

Lemma first_failure_none xs :
  Forall (fun x => leaf_error x = None) xs -> first_failure xs = None.
Proof.
  induction 1 as [|x xs Hx _ IH]; simpl; [reflexivity | now rewrite Hx].
Qed.

Lemma compound_loop_error rec op subexprs :
  Forall (fun e => forall b, snd (rec b e) = first_failure (leaves e))
         subexprs ->
  forall i b,
    snd (compound_loop rec op i subexprs b)
    = first_failure (flat_map leaves subexprs).
Proof.
  induction 1 as [|e rest He _ IH]; intros i b.
  - reflexivity.
  - rewrite compound_loop_cons. simpl flat_map. rewrite first_failure_app.
    set (b1 := if (0 <? i)%nat then _ else b).
    rewrite <- (He b1). destruct (rec b1 e) as [b2 [err|]]; simpl.
    + reflexivity.
    + apply IH.
Qed.

Lemma compoundExpression_error rec op subexprs b :
  Forall (fun e => forall b, snd (rec b e) = first_failure (leaves e))
         subexprs ->
  snd (compoundExpression rec b subexprs op)
  = first_failure (flat_map leaves subexprs).
Proof.
  intros H. unfold compoundExpression.
  rewrite <- (compound_loop_error rec op subexprs H 0 (append_query b "( ")).
  now destruct (compound_loop rec op 0 subexprs (append_query b "( "))
    as [b1 [err|]].
Qed.

Lemma compile_error expr :
  forall b, snd (compile b expr) = first_failure (leaves expr).
Proof.
  induction expr as [l IH|l IH|f v|t] using FilterExpression_tree_ind;
    intros b.
  - rewrite compile_And. now apply compoundExpression_error.
  - rewrite compile_Or. now apply compoundExpression_error.
  - simpl. unfold supported_key.
    destruct (strings_Join f "." =? "type"); [reflexivity|].
    destruct (strings_Join f "." =? "id"); [reflexivity|].
    destruct (strings_Join f "." =? "$index"); reflexivity.
  - reflexivity.
Qed.

(** ** On success the appended values are the tree's, in pre-order *)

Lemma compound_loop_args rec op subexprs :
  Forall (appends_values rec) subexprs ->
  forall i b b',
    compound_loop rec op i subexprs b = (b', None) ->
    args b' = (args b ++ flat_map leaf_values (flat_map leaves subexprs))%list.
Proof.
  induction 1 as [|e rest He _ IH]; intros i b b'.
  - rewrite compound_loop_nil. intros [= <-]. simpl. now rewrite app_nil_r.
  - rewrite compound_loop_cons.
    set (b1 := if (0 <? i)%nat then _ else b).
    assert (Hb1 : args b1 = args b) by (subst b1; now destruct (0 <? i)%nat).
    specialize (He b1). destruct (rec b1 e) as [b2 [err|]]; [discriminate|].
    intros Hl. apply IH in Hl. rewrite Hl, (He b2 eq_refl), Hb1.
    simpl flat_map. rewrite flat_map_app, <- app_assoc. reflexivity.
Qed.

Lemma compoundExpression_args rec op subexprs b b' :
  Forall (appends_values rec) subexprs ->
  compoundExpression rec b subexprs op = (b', None) ->
  args b' = (args b ++ flat_map leaf_values (flat_map leaves subexprs))%list.
Proof.
  intros H. unfold compoundExpression.
  pose proof (compound_loop_args rec op subexprs H 0 (append_query b "( "))
    as Hl.
  destruct (compound_loop rec op 0 subexprs (append_query b "( "))
    as [b1 [err|]]; [discriminate|].
  intros [= <-]. simpl. exact (Hl b1 eq_refl).
Qed.

Lemma equals_arm_args b col v b' r :
  equals_arm b col v = (b', r) -> args b' = (args b ++ [v])%list.
Proof. unfold equals_arm. now intros [= <- _]. Qed.

Lemma compile_args expr : appends_values compile expr.
Proof.
  induction expr as [l IH|l IH|f v|t] using FilterExpression_tree_ind;
    intros b b'.
  - rewrite compile_And. now apply compoundExpression_args.
  - rewrite compile_Or. now apply compoundExpression_args.
  - simpl.
    repeat match goal with
           | |- context [if ?c then _ else _] => destruct c
           end;
      try discriminate; apply equals_arm_args.
  - discriminate.
Qed.

(** ** The emitted text does not depend on the text already there *)

Lemma append_query_frame q b s :
  append_query (frame q b) s = frame q (append_query b s).
Proof. unfold append_query, frame. simpl. now rewrite string_app_assoc. Qed.

Lemma append_arg_frame q b v :
  append_arg (frame q b) v = frame q (append_arg b v).
Proof. reflexivity. Qed.

Lemma compound_loop_frame rec op subexprs :
  Forall (framed rec) subexprs ->
  forall i q b,
    compound_loop rec op i subexprs (frame q b)
    = (frame q (fst (compound_loop rec op i subexprs b)),
       snd (compound_loop rec op i subexprs b)).
Proof.
  induction 1 as [|e rest He _ IH]; intros i q b.
  - reflexivity.
  - rewrite !compound_loop_cons.
    assert (Hb1 : (if (0 <? i)%nat
                   then append_query (frame q b) (" " ++ op ++ " ")
                   else frame q b)
                  = frame q (if (0 <? i)%nat
                             then append_query b (" " ++ op ++ " ") else b)).
    { destruct (0 <? i)%nat; [apply append_query_frame | reflexivity]. }
    rewrite Hb1, He.
    destruct (rec _ e) as [b2 [err|]]; simpl; [reflexivity | apply IH].
Qed.

Lemma compoundExpression_frame rec op subexprs :
  Forall (framed rec) subexprs ->
  forall q b,
    compoundExpression rec (frame q b) subexprs op
    = (frame q (fst (compoundExpression rec b subexprs op)),
       snd (compoundExpression rec b subexprs op)).
Proof.
  intros H q b. unfold compoundExpression.
  rewrite append_query_frame, (compound_loop_frame rec op subexprs H).
  destruct (compound_loop rec op 0 subexprs (append_query b "( "))
    as [b1 [err|]]; simpl; [reflexivity|].
  now rewrite append_query_frame.
Qed.

Lemma equals_arm_frame q b col v :
  equals_arm (frame q b) col v
  = (frame q (fst (equals_arm b col v)), snd (equals_arm b col v)).
Proof.
  unfold equals_arm. simpl fst. simpl snd.
  now rewrite <- append_arg_frame, <- append_query_frame.
Qed.

Lemma compile_frame expr : framed compile expr.
Proof.
  induction expr as [l IH|l IH|f v|t] using FilterExpression_tree_ind;
    intros q b.
  - rewrite !compile_And. now apply compoundExpression_frame.
  - rewrite !compile_Or. now apply compoundExpression_frame.
  - simpl.
    repeat match goal with
           | |- context [if ?c then _ else _] => destruct c
           end;
      try apply equals_arm_frame; reflexivity.
  - reflexivity.
Qed.

Lemma compile_from_empty b expr :
  compile b expr
  = (frame (query b) (fst (compile (Buffers "" (args b)) expr)),
     snd (compile (Buffers "" (args b)) expr)).
Proof.
  rewrite <- compile_frame. f_equal.
  destruct b as [q a]. unfold frame. simpl. now rewrite string_app_nil_r.
Qed.

(** ** The loop over the children, in terms of their fragments *)

Lemma concat_cons_prefixed sep frag frags :
  String.concat sep (frag :: frags) = frag ++ prefixed sep frags.
Proof.
  revert frag. induction frags as [|f fs IH]; intros frag.
  - simpl. now rewrite string_app_nil_r.
  - change (String.concat sep (frag :: f :: fs))
      with (frag ++ sep ++ String.concat sep (f :: fs)).
    now rewrite IH.
Qed.

Lemma compound_loop_success op children :
  forall i b frags a',
    compile_children (args b) children = Some (frags, a') ->
    compound_loop compile op (S i) children b
    = ({| query := query b ++ prefixed (" " ++ op ++ " ") frags;
          args := a' |}, None).
Proof.
  induction children as [|c cs IH]; intros i b frags a' H.
  - injection H as <- <-. rewrite compound_loop_nil. simpl.
    rewrite string_app_nil_r. now destruct b.
  - simpl in H. rewrite compound_loop_cons.
    change (0 <? S i)%nat with true. cbv iota.
    rewrite compile_from_empty. simpl args.
    destruct (compile (Buffers "" (args b)) c) as [bc [err|]];
      [discriminate|].
    destruct (compile_children (args bc) cs) as [[fs a'']|] eqn:Hcs;
      [|discriminate].
    injection H as <- <-. simpl fst. simpl snd. cbv iota.
    rewrite (IH (S i) (frame _ bc) fs a'' Hcs).
    unfold frame, append_query. cbn [query args prefixed].
    now rewrite !string_app_assoc.
Qed.

Lemma compound_loop_first op children b :
  compound_loop compile op 0 children b
  = match children with
    | [] => (b, None)
    | c :: cs =>
        match compile b c with
        | (b2, Some err) => (b2, Some err)
        | (b2, None) => compound_loop compile op 1 cs b2
        end
    end.
Proof. destruct children; reflexivity. Qed.

Lemma compoundExpression_success op children b frags a' :
  compile_children (args b) children = Some (frags, a') ->
  compoundExpression compile b children op
  = ({| query := query b ++ "( "
                   ++ String.concat (" " ++ op ++ " ") frags ++ " )";
        args := a' |}, None).
Proof.
  intros H. unfold compoundExpression. rewrite compound_loop_first.
  destruct children as [|c cs].
  - injection H as <- <-. unfold append_query. cbn [query args].
    now rewrite string_app_assoc.
  - simpl in H. rewrite compile_from_empty. simpl args.
    destruct (compile (Buffers "" (args b)) c) as [bc [err|]];
      [discriminate|].
    destruct (compile_children (args bc) cs) as [[fs a'']|] eqn:Hcs;
      [|discriminate].
    injection H as <- <-. simpl fst. simpl snd. cbv iota.
    rewrite (compound_loop_success op cs 0 (frame _ bc) fs a'' Hcs).
    rewrite concat_cons_prefixed.
    unfold frame, append_query. cbn [query args].
    now rewrite !string_app_assoc.
Qed.

(** ** A failing child leaves what was emitted before it *)

Lemma compound_loop_failure op pre c post :
  forall i b frags a1 bc err,
    compile_children (args b) pre = Some (frags, a1) ->
    compile (Buffers "" a1) c = (bc, Some err) ->
    compound_loop compile op (S i) (pre ++ c :: post) b
    = ({| query := query b ++ prefixed (" " ++ op ++ " ") (frags ++ [query bc]);
          args := args bc |}, Some err).
Proof.
  induction pre as [|p ps IH]; intros i b frags a1 bc err H Hc.
  - injection H as <- <-. simpl app. rewrite compound_loop_cons.
    change (0 <? S i)%nat with true. cbv iota.
    rewrite compile_from_empty. cbn [args append_query]. rewrite Hc.
    unfold frame, append_query. cbn [query args prefixed fst snd].
    now rewrite string_app_nil_r, !string_app_assoc.
  - simpl in H. simpl app. rewrite compound_loop_cons.
    change (0 <? S i)%nat with true. cbv iota.
    rewrite compile_from_empty. cbn [args append_query].
    destruct (compile (Buffers "" (args b)) p) as [bp [e|]];
      [discriminate|].
    destruct (compile_children (args bp) ps) as [[fs a'']|] eqn:Hps;
      [|discriminate].
    injection H as <- <-. cbn [fst snd].
    rewrite (IH (S i) (frame _ bp) fs a'' bc err Hps Hc).
    unfold frame, append_query. cbn [query args prefixed app].
    now rewrite !string_app_assoc.
Qed.

Lemma compoundExpression_failure op pre c post b frags a1 bc err :
  compile_children (args b) pre = Some (frags, a1) ->
  compile (Buffers "" a1) c = (bc, Some err) ->
  compoundExpression compile b (pre ++ c :: post) op
  = ({| query := query b ++ "( "
                   ++ String.concat (" " ++ op ++ " ") (frags ++ [query bc]);
        args := args bc |}, Some err).
Proof.
  intros H Hc. unfold compoundExpression.
  destruct pre as [|p ps]; simpl app; rewrite compound_loop_first.
  - injection H as <- <-. rewrite compile_from_empty.
    cbn [args append_query]. rewrite Hc.
    unfold frame, append_query. cbn [query args fst snd String.concat app].
    now rewrite string_app_assoc.
  - simpl in H. rewrite compile_from_empty.
    cbn [args append_query].
    destruct (compile (Buffers "" (args b)) p) as [bp [e|]];
      [discriminate|].
    destruct (compile_children (args bp) ps) as [[fs a'']|] eqn:Hps;
      [|discriminate].
    injection H as <- <-. cbn [fst snd].
    rewrite (compound_loop_failure op ps c post 0 (frame _ bp) fs a'' bc err
               Hps Hc).
    change ((query bp :: fs) ++ [query bc])%list
      with (query bp :: (fs ++ [query bc]))%list.
    rewrite concat_cons_prefixed.
    unfold frame, append_query. cbn [query args].
    now rewrite !string_app_assoc.
Qed.

(** ** Scanning the emitted text for placeholders *)

Lemma dollar_free_app s t :
  dollar_free (s ++ t) = dollar_free s && dollar_free t.
Proof.
  induction s as [|c s IH]; simpl; [reflexivity|].
  now rewrite IH, andb_assoc.
Qed.

Lemma separator_dollar_free op :
  dollar_free op = true -> dollar_free (" " ++ op ++ " ") = true.
Proof. intros H. simpl. now rewrite dollar_free_app, H. Qed.

Lemma scan_dollar_free s :
  dollar_free s = true -> forall t, scan Idle (s ++ t) = scan Idle t.
Proof.
  induction s as [|c s IH]; simpl; intros H t; [reflexivity|].
  apply andb_prop in H. destruct H as [Hc Hs].
  apply negb_true_iff in Hc. rewrite Hc.
  destruct (digit_of_ascii c); simpl; now apply IH.
Qed.

Lemma scan_flush st rest :
  no_leading_digit rest ->
  scan st rest = (flush st ++ scan Idle rest)%list.
Proof.
  destruct rest as [|c rest]; simpl; intros H.
  - now rewrite app_nil_r.
  - now rewrite H.
Qed.

(** Evaluates [digit_of_ascii] at a character literal. *)
Ltac eval_digit :=
  match goal with
  | |- context [digit_of_ascii ?c] =>
      let v := eval vm_compute in (digit_of_ascii c) in
      change (digit_of_ascii c) with v
  end.

Lemma scan_digits d :
  forall acc rest,
    scan (Number acc) (NilEmpty.string_of_uint d ++ rest)
    = scan (Number (Nat.of_uint_acc d acc)) rest.
Proof.
  induction d; intros acc rest;
    cbn [NilEmpty.string_of_uint append scan Nat.of_uint_acc];
    try reflexivity;
    eval_digit; cbv iota; rewrite IHd, Nat.tail_mul_spec; reflexivity.
Qed.

Lemma to_uint_not_Nil n : Nat.to_uint n <> Decimal.Nil.
Proof.
  intros H. pose proof (Unsigned.of_to n) as Hn. rewrite H in Hn.
  simpl in Hn. subst n. discriminate H.
Qed.

Lemma scan_fmt_d n rest :
  scan Dollar (fmt_d n ++ rest) = scan (Number n) rest.
Proof.
  unfold fmt_d. pose proof (Unsigned.of_to n) as Hn.
  pose proof (to_uint_not_Nil n) as Hnil.
  unfold Nat.of_uint in Hn.
  destruct (Nat.to_uint n) as [|d|d|d|d|d|d|d|d|d|d]; [now elim Hnil|..];
    cbn [NilEmpty.string_of_uint append scan];
    eval_digit; cbv iota;
    rewrite scan_digits; cbn [Nat.of_uint_acc] in Hn;
    rewrite Nat.tail_mul_spec in Hn; cbn [Nat.mul Nat.add] in Hn;
    now rewrite Hn.
Qed.

Lemma emits_Sprintf n : emits (Sprintf_dollar_d n) [n].
Proof.
  intros rest Hrest. unfold Sprintf_dollar_d.
  change (scan Dollar (fmt_d n ++ rest) = n :: scan Idle rest).
  rewrite scan_fmt_d. now apply scan_flush.
Qed.

Lemma emits_dollar_free s : dollar_free s = true -> emits s [].
Proof. intros H rest _. now apply scan_dollar_free. Qed.

Lemma emits_prefix s frag ns :
  dollar_free s = true -> emits (s ++ frag) ns <-> emits frag ns.
Proof.
  intros H. split; intros He rest Hrest; specialize (He rest Hrest).
  - now rewrite string_app_assoc, scan_dollar_free in He.
  - now rewrite string_app_assoc, scan_dollar_free.
Qed.

Lemma no_leading_digit_app s t :
  no_leading_digit s -> no_leading_digit t -> no_leading_digit (s ++ t).
Proof. destruct s; simpl; auto. Qed.

Lemma emits_app f1 ns1 f2 ns2 :
  emits f1 ns1 -> emits f2 ns2 -> no_leading_digit f2 ->
  emits (f1 ++ f2) (ns1 ++ ns2).
Proof.
  intros H1 H2 Hd rest Hrest.
  rewrite string_app_assoc, H1 by now apply no_leading_digit_app.
  now rewrite H2, <- app_assoc.
Qed.

Section Placeholders.

Hypothesis schemaName_dollar_free : dollar_free schemaName = true.
Hypothesis recordsTableName_dollar_free : dollar_free recordsTableName = true.

Lemma equals_arm_emits col n :
  dollar_free col = true ->
  emits (schemaName ++ "." ++ recordsTableName ++ col ++ Sprintf_dollar_d n)
        [n].
Proof.
  intros Hcol.
  apply emits_prefix; [exact schemaName_dollar_free|].
  apply (emits_prefix "."); [reflexivity|].
  apply emits_prefix; [exact recordsTableName_dollar_free|].
  apply emits_prefix; [exact Hcol|].
  apply emits_Sprintf.
Qed.

Lemma equals_arm_placeholder a col v b' :
  dollar_free col = true ->
  equals_arm (Buffers "" a) col v = (b', None) ->
  emits (query b') [S (length a)].
Proof.
  unfold equals_arm. intros Hcol [= <-].
  cbn [query args append_query append_arg].
  change ("" ++ ?x) with x. rewrite Nat.add_1_r.
  now apply equals_arm_emits.
Qed.

Lemma children_emit op children :
  dollar_free op = true ->
  Forall emits_placeholders children ->
  forall a frags a',
    compile_children a children = Some (frags, a') ->
    emits (prefixed (" " ++ op ++ " ") frags ++ " )")
          (seq (S (length a))
               (length (flat_map leaf_values (flat_map leaves children)))).
Proof.
  intros Hop. induction 1 as [|c cs Hc _ IH]; intros a frags a' H.
  - injection H as <- <-. now apply emits_dollar_free.
  - simpl in H.
    destruct (compile (Buffers "" a) c) as [bc [err|]] eqn:Ec;
      [discriminate|].
    destruct (compile_children (args bc) cs) as [[fs a'']|] eqn:Ecs;
      [|discriminate].
    injection H as <- <-.
    cbn [prefixed flat_map]. rewrite flat_map_app, length_app, seq_app.
    pose proof (separator_dollar_free op Hop) as Hsep.
    set (sep := " " ++ op ++ " ") in *.
    rewrite !string_app_assoc.
    apply emits_prefix; [exact Hsep|].
    apply emits_app.
    + exact (Hc a bc Ec).
    + specialize (IH (args bc) fs a'' Ecs).
      rewrite (compile_args c _ _ Ec), length_app in IH. exact IH.
    + destruct fs; reflexivity.
Qed.

Lemma children_succeed children :
  first_failure (flat_map leaves children) = None ->
  forall a, exists frags a', compile_children a children = Some (frags, a').
Proof.
  induction children as [|c cs IH]; intros H a.
  - now exists [], a.
  - simpl in H. rewrite first_failure_app in H.
    destruct (first_failure (leaves c)) eqn:Hc; [discriminate|].
    simpl. pose proof (compile_error c (Buffers "" a)) as Hs.
    rewrite Hc in Hs.
    destruct (compile (Buffers "" a) c) as [bc r]. simpl in Hs. subst r.
    destruct (IH H (args bc)) as (fs & a'' & Hcs). rewrite Hcs.
    now exists (query bc :: fs), a''.
Qed.

Lemma compoundExpression_emits op children :
  dollar_free op = true ->
  Forall emits_placeholders children ->
  forall a b',
    compoundExpression compile (Buffers "" a) children op = (b', None) ->
    emits (query b')
          (seq (S (length a))
               (length (flat_map leaf_values (flat_map leaves children)))).
Proof.
  intros Hop Hall a b' H.
  assert (Hok : first_failure (flat_map leaves children) = None).
  { rewrite <- (compoundExpression_error compile op children (Buffers "" a)).
    - now rewrite H.
    - apply Forall_forall. intros e _. apply compile_error. }
  destruct (children_succeed children Hok a) as (frags & a' & Hcs).
  rewrite (compoundExpression_success op children (Buffers "" a) frags a' Hcs)
    in H.
  injection H as <-. cbn [query args append].
  pose proof (children_emit op children Hop Hall a frags a' Hcs) as He.
  apply (emits_prefix "( "); [reflexivity|].
  destruct frags as [|f fs].
  - exact He.
  - rewrite concat_cons_prefixed, string_app_assoc.
    cbn [prefixed] in He.
    pose proof (separator_dollar_free op Hop) as Hsep.
    set (sep := " " ++ op ++ " ") in *.
    rewrite !string_app_assoc in He.
    now apply emits_prefix in He.
Qed.

Lemma compile_emits expr : emits_placeholders expr.
Proof.
  induction expr as [l IH|l IH|f v|t] using FilterExpression_tree_ind;
    intros a b'.
  - rewrite compile_And. now apply compoundExpression_emits.
  - rewrite compile_Or. now apply compoundExpression_emits.
  - cbn [addFilterExpressionToQuery].
    repeat match goal with
           | |- context [if ?c then _ else _] => destruct c
           end;
      try discriminate;
      now apply equals_arm_placeholder.
  - discriminate.
Qed.

End Placeholders.

(** ** Keys of the field mapping *)

Lemma has_dot_app_dot s t : has_dot (s ++ "." ++ t) = true.
Proof.
  induction s as [|c s IH]; simpl in *; [reflexivity|].
  rewrite IH. apply orb_true_r.
Qed.

Lemma Join_two_or_more x y l : has_dot (strings_Join (x :: y :: l) ".") = true.
Proof.
  unfold strings_Join.
  change (String.concat "." (x :: y :: l))
    with (x ++ "." ++ String.concat "." (y :: l)).
  apply has_dot_app_dot.
Qed.

Lemma supported_key_cases key :
  supported_key key = true <-> key = "type" \/ key = "id" \/ key = "$index".
Proof.
  unfold supported_key. rewrite !orb_true_iff, !String.eqb_eq. tauto.
Qed.

Lemma supported_key_no_dot key : supported_key key = true -> has_dot key = false.
Proof.
  rewrite supported_key_cases. intros [-> | [-> | ->]]; reflexivity.
Qed.

Lemma supported_path Fields :
  supported_key (strings_Join Fields ".") = true
  <-> Fields = ["type"] \/ Fields = ["id"] \/ Fields = ["$index"].
Proof.
  split.
  - intros H. destruct Fields as [|x [|y l]].
    + discriminate H.
    + apply supported_key_cases in H. simpl in H.
      destruct H as [-> | [-> | ->]]; auto.
    + apply supported_key_no_dot in H.
      now rewrite Join_two_or_more in H.
  - intros [-> | [-> | ->]]; reflexivity.
Qed.

Lemma compile_Equals b Fields Value :
  compile b (EqualsFilterExpression Fields Value)
  = if strings_Join Fields "." =? "type" then equals_arm b ".type = " Value
    else if strings_Join Fields "." =? "id" then equals_arm b ".id = " Value
    else if strings_Join Fields "." =? "$index"
         then equals_arm b ".index_cidr >>= " Value
    else (b, Some (Errorf_unsupported_equals Fields)).
Proof. reflexivity. Qed.

Lemma compile_Equals_unsupported b Fields Value :
  supported_key (strings_Join Fields ".") = false ->
  compile b (EqualsFilterExpression Fields Value)
  = (b, Some (Errorf_unsupported_equals Fields)).
Proof.
  unfold supported_key. rewrite compile_Equals. intros H.
  apply orb_false_elim in H. destruct H as [H H3].
  apply orb_false_elim in H. destruct H as [H1 H2].
  now rewrite H1, H2, H3.
Qed.

(** ** The properties of the specification *)

(** C1. When compilation succeeds, the text appended to the query holds as
    many placeholders as values were appended to the argument list, and their
    indices are [len(args)+1], [len(args)+2], ... in this order, one each,
    without gap or repeat. The schema and table names are identifiers
    without ['$']. *)
Theorem placeholders_number_the_new_arguments :
  dollar_free schemaName = true ->
  dollar_free recordsTableName = true ->
  forall expr b b',
    addFilterExpressionToQuery b expr = (b', None) ->
    exists frag news,
      query b' = query b ++ frag /\
      args b' = (args b ++ news)%list /\
      placeholders frag = seq (length (args b) + 1) (length news) /\
      length (placeholders frag) = length news /\
      NoDup (placeholders frag).
Proof.
  intros Hs Ht expr b b' H.
  rewrite compile_from_empty in H.
  destruct (addFilterExpressionToQuery (Buffers "" (args b)) expr)
    as [b0 r] eqn:E.
  cbn [fst snd] in H. injection H as <- ->.
  pose proof (compile_args expr _ _ E) as Ha. cbn [args] in Ha.
  pose proof (compile_emits Hs Ht expr _ _ E "" I) as Hp.
  rewrite string_app_nil_r in Hp. cbn [scan flush] in Hp.
  rewrite app_nil_r in Hp.
  assert (Hseq : placeholders (query b0)
                 = seq (length (args b) + 1)
                       (length (values_in_preorder expr))).
  { unfold placeholders. now rewrite Nat.add_1_r. }
  exists (query b0), (values_in_preorder expr).
  repeat split; try assumption.
  - rewrite Hseq. apply length_seq.
  - rewrite Hseq. apply seq_NoDup.
Qed.

(** C3. An [Equals] node whose field path joins to ["$index"] compares the
    qualified [index_cidr] column with the containment operator [>>=], not
    with [=], and appends the value of the node to the argument list. The
    text it appends holds exactly one placeholder, and its index is the
    position of that value in the argument list, [len(args)+1] (the schema
    and table names being identifiers without ['$']). *)
Theorem index_key_uses_containment :
  forall Fields Value b,
    strings_Join Fields "." = "$index" ->
    addFilterExpressionToQuery b (EqualsFilterExpression Fields Value)
    = ({| query := query b ++ schemaName ++ "." ++ recordsTableName
                     ++ ".index_cidr >>= "
                     ++ "$" ++ fmt_d (length (args b) + 1);
          args := (args b ++ [Value])%list |}, None) /\
    (dollar_free schemaName = true ->
     dollar_free recordsTableName = true ->
     placeholders (schemaName ++ "." ++ recordsTableName
                     ++ ".index_cidr >>= "
                     ++ "$" ++ fmt_d (length (args b) + 1))
     = [length (args b) + 1]).
Proof.
  intros f v b H. split.
  - rewrite compile_Equals, H. reflexivity.
  - intros Hs Ht.
    pose proof (equals_arm_emits Hs Ht ".index_cidr >>= "
                  (length (args b) + 1) eq_refl "" I) as Hp.
    rewrite string_app_nil_r in Hp. exact Hp.
Qed.

(** C4, as the code has it. A tree that holds an [Equals] node whose joined
    field path is not a key of the mapping never compiles, wherever the node
    sits; the error is the one of the first failing leaf in pre-order, so it
    is the unsupported-field error carrying the field path of that node when
    every leaf before it is an [Equals] node with a supported key. *)
Theorem unsupported_field_fails :
  forall expr b pre Fields Value post,
    leaves expr = (pre ++ LeafEquals Fields Value :: post)%list ->
    supported_key (strings_Join Fields ".") = false ->
    (exists err, snd (addFilterExpressionToQuery b expr) = Some err) /\
    (Forall (fun x => leaf_error x = None) pre ->
     snd (addFilterExpressionToQuery b expr)
     = Some (Errorf_unsupported_equals Fields)).
Proof.
  intros expr b pre f v post Hl Hk. rewrite compile_error, Hl.
  assert (Hx : leaf_error (LeafEquals f v)
               = Some (Errorf_unsupported_equals f)).
  { simpl. now rewrite Hk. }
  split.
  - rewrite first_failure_app. destruct (first_failure pre) as [e|]; eauto.
    cbn [first_failure]. rewrite Hx. eauto.
  - intros Hpre. rewrite first_failure_app.
    replace (first_failure pre) with (@None error).
    + cbn [first_failure]. now rewrite Hx.
    + symmetry. now apply first_failure_none.
Qed.

(** C5, as the code has it. A tree that holds a node of a variant other than
    [And], [Or] and [Equals] never compiles; the error is the one of the
    first failing leaf in pre-order, so it is the unsupported-expression
    error carrying the dynamic type of that node when every leaf before it
    is an [Equals] node with a supported key. *)
Theorem unsupported_variant_fails :
  forall expr b pre dynamic_type post,
    leaves expr = (pre ++ LeafOther dynamic_type :: post)%list ->
    (exists err, snd (addFilterExpressionToQuery b expr) = Some err) /\
    (Forall (fun x => leaf_error x = None) pre ->
     snd (addFilterExpressionToQuery b expr)
     = Some (Errorf_unsupported_expression dynamic_type)).
Proof.
  intros expr b pre t post Hl. rewrite compile_error, Hl.
  split.
  - rewrite first_failure_app. destruct (first_failure pre) as [e|]; eauto.
    cbn [first_failure leaf_error]. eauto.
  - intros Hpre. rewrite first_failure_app.
    replace (first_failure pre) with (@None error).
    + reflexivity.
    + symmetry. now apply first_failure_none.
Qed.

(** C6. When the children of an [And] or [Or] node all compile, the node
    emits ["( "], the fragments of the children in input order joined by
    [" AND "] or [" OR "], then [" )"]. In particular
    [And([Equals(["type"],x), Equals(["id"],y)])] compiled into empty
    buffers gives ["( <schema>.<table>.type = $1 AND <schema>.<table>.id = $2 )"]
    with arguments [[x; y]]. *)
Theorem compound_joins_children_in_order :
  (forall children b frags a',
     compile_children (args b) children = Some (frags, a') ->
     addFilterExpressionToQuery b (AndFilterExpression children)
     = ({| query := query b ++ "( " ++ String.concat " AND " frags ++ " )";
           args := a' |}, None) /\
     addFilterExpressionToQuery b (OrFilterExpression children)
     = ({| query := query b ++ "( " ++ String.concat " OR " frags ++ " )";
           args := a' |}, None)) /\
  (forall x y,
     addFilterExpressionToQuery (Buffers "" [])
       (AndFilterExpression [EqualsFilterExpression ["type"] x;
                             EqualsFilterExpression ["id"] y])
     = ({| query := "( " ++ schemaName ++ "." ++ recordsTableName
                      ++ ".type = $1 AND "
                      ++ schemaName ++ "." ++ recordsTableName
                      ++ ".id = $2 )";
           args := [x; y] |}, None)).
Proof.
  split.
  - intros children b frags a' H. split.
    + rewrite compile_And.
      exact (compoundExpression_success "AND" children b frags a' H).
    + rewrite compile_Or.
      exact (compoundExpression_success "OR" children b frags a' H).
  - intros x y. rewrite compile_And.
    erewrite compoundExpression_success by reflexivity.
    cbn [query args fst snd append_query append_arg String.concat].
    f_equal. f_equal. unfold Sprintf_dollar_d.
    change (fmt_d (length (@nil scalar) + 1)) with "1".
    change (fmt_d (length [x] + 1)) with "2".
    repeat (progress (cbn [append]; rewrite ?string_app_assoc)).
    reflexivity.
Qed.

(** C7. When compilation succeeds, the values appended to the argument list
    are the values of the [Equals] nodes of the tree, in the order of a
    pre-order traversal. *)
Theorem parameters_follow_preorder :
  forall expr b b',
    addFilterExpressionToQuery b expr = (b', None) ->
    args b' = (args b ++ values_in_preorder expr)%list.
Proof. intros expr b b' H. exact (compile_args expr b b' H). Qed.

(** C8, as the code has it. An [And] or [Or] node without children compiles;
    it emits ["( "] and then [" )"], that is an opening parenthesis, two
    spaces and a closing parenthesis, with no operator keyword, and appends
    no argument. *)
Theorem empty_compound_fragment :
  forall b,
    addFilterExpressionToQuery b (AndFilterExpression [])
    = ({| query := query b ++ "(  )"; args := args b |}, None) /\
    addFilterExpressionToQuery b (OrFilterExpression [])
    = ({| query := query b ++ "(  )"; args := args b |}, None).
Proof.
  intros b. split; cbn; unfold append_query; cbn [query args];
    now rewrite string_app_assoc.
Qed.

(** C9. An [Equals] node compiles exactly when its field path is one of the
    singletons [["type"]], [["id"]], [["$index"]]. The empty path and every
    path of two or more segments fail with the unsupported-field error (the
    buffers untouched), since the joined key is empty or holds a ['.']. *)
Theorem equals_compiles_iff_singleton_key :
  forall Fields Value b,
    (snd (addFilterExpressionToQuery b (EqualsFilterExpression Fields Value))
     = None
     <-> Fields = ["type"] \/ Fields = ["id"] \/ Fields = ["$index"]) /\
    (Fields = [] \/ 2 <= length Fields ->
     addFilterExpressionToQuery b (EqualsFilterExpression Fields Value)
     = (b, Some (Errorf_unsupported_equals Fields))).
Proof.
  intros f v b. split.
  - rewrite <- supported_path, compile_error. simpl.
    destruct (supported_key (strings_Join f ".")); split;
      congruence.
  - intros H. apply compile_Equals_unsupported.
    destruct (supported_key (strings_Join f ".")) eqn:E; [|reflexivity].
    apply supported_path in E.
    destruct H as [-> | H].
    + destruct E as [E | [E | E]]; discriminate E.
    + destruct E as [-> | [-> | ->]]; simpl in H; lia.
Qed.

(** C10. Whether it returns an error or not, a call only appends: the query
    before the call is a prefix of the query after it, and likewise the
    argument list. In particular, when the children [pre] of a compound node
    compile and the next child [c] fails, the buffers hold the opening
    ["( "], the fragments of [pre] with their separators, the separator
    before [c] and whatever [c] emitted before failing, and the arguments
    appended by [pre] and by [c]; the closing [" )"] is not emitted. *)
Theorem call_only_appends :
  (forall expr b,
     (exists frag,
        query (fst (addFilterExpressionToQuery b expr)) = query b ++ frag) /\
     (exists news,
        args (fst (addFilterExpressionToQuery b expr))
        = (args b ++ news)%list)) /\
  (forall b pre c post frags a1 bc err,
     compile_children (args b) pre = Some (frags, a1) ->
     addFilterExpressionToQuery (Buffers "" a1) c = (bc, Some err) ->
     addFilterExpressionToQuery b (AndFilterExpression (pre ++ c :: post))
     = ({| query := query b ++ "( "
                      ++ String.concat " AND " (frags ++ [query bc]);
           args := args bc |}, Some err) /\
     addFilterExpressionToQuery b (OrFilterExpression (pre ++ c :: post))
     = ({| query := query b ++ "( "
                      ++ String.concat " OR " (frags ++ [query bc]);
           args := args bc |}, Some err)).
Proof.
  split.
  - intros expr b.
    destruct (compile_extends expr b) as (frag & news & Hq & Ha). eauto.
  - intros b pre c post frags a1 bc err H Hc. split.
    + rewrite compile_And.
      exact (compoundExpression_failure "AND" pre c post b frags a1 bc err
               H Hc).
    + rewrite compile_Or.
      exact (compoundExpression_failure "OR" pre c post b frags a1 bc err
               H Hc).
Qed.

(** ** Further properties of the compiler *)

(** X1. What a call appends and what it returns do not depend on the text
    already in the query: with [q] in front of the query, the call appends
    the same fragment and the same arguments and returns the same error. *)
Theorem fragment_independent_of_existing_text :
  forall expr q q0 a,
    addFilterExpressionToQuery {| query := q ++ q0; args := a |} expr
    = ({| query :=
            q ++ query (fst (addFilterExpressionToQuery
                               {| query := q0; args := a |} expr));
          args :=
            args (fst (addFilterExpressionToQuery
                         {| query := q0; args := a |} expr)) |},
       snd (addFilterExpressionToQuery {| query := q0; args := a |} expr)).
Proof.
  intros expr q q0 a.
  exact (compile_frame expr q {| query := q0; args := a |}).
Qed.

Lemma first_failure_None_iff xs :
  first_failure xs = None <-> Forall (fun x => leaf_error x = None) xs.
Proof.
  split; [|apply first_failure_none].
  induction xs as [|x xs IH]; simpl; intros H; [constructor|].
  destruct (leaf_error x) eqn:Hx; [discriminate|].
  constructor; [exact Hx | now apply IH].
Qed.

(** X2. The error a call returns is the error of the first leaf, in
    pre-order, that raises one, whatever the buffers hold; the call succeeds
    exactly when every leaf of the tree is an [Equals] node with a
    supported key. *)
Theorem error_is_first_failing_leaf :
  forall expr b,
    snd (addFilterExpressionToQuery b expr) = first_failure (leaves expr) /\
    (snd (addFilterExpressionToQuery b expr) = None
     <-> Forall (fun x => leaf_error x = None) (leaves expr)).
Proof.
  intros expr b. split; [apply compile_error|].
  rewrite compile_error. apply first_failure_None_iff.
Qed.

Lemma compiled_prefix_all xs :
  first_failure xs = None -> compiled_prefix xs = xs.
Proof.
  induction xs as [|x xs IH]; simpl; [reflexivity|].
  destruct (leaf_error x); [discriminate|]. intros H. now rewrite IH.
Qed.

Lemma compiled_prefix_app xs ys :
  compiled_prefix (xs ++ ys)
  = match first_failure xs with
    | Some _ => compiled_prefix xs
    | None => (xs ++ compiled_prefix ys)%list
    end.
Proof.
  induction xs as [|x xs IH]; simpl; [reflexivity|].
  destruct (leaf_error x); [reflexivity|]. rewrite IH.
  now destruct (first_failure xs).
Qed.

Lemma compound_loop_partial_args rec op subexprs :
  Forall (fun e => forall b,
            args (fst (rec b e))
            = (args b ++ flat_map leaf_values (compiled_prefix (leaves e)))%list
            /\ snd (rec b e) = first_failure (leaves e)) subexprs ->
  forall i b,
    args (fst (compound_loop rec op i subexprs b))
    = (args b
         ++ flat_map leaf_values
              (compiled_prefix (flat_map leaves subexprs)))%list.
Proof.
  induction 1 as [|e rest He _ IH]; intros i b.
  - simpl. now rewrite app_nil_r.
  - rewrite compound_loop_cons. cbn [flat_map].
    rewrite compiled_prefix_app.
    set (b1 := if (0 <? i)%nat then _ else b).
    assert (Hb1 : args b1 = args b) by (subst b1; now destruct (0 <? i)%nat).
    destruct (He b1) as [Ha Hr]. rewrite <- Hr.
    destruct (rec b1 e) as [b2 [err|]]; cbn [fst snd] in *.
    + now rewrite Ha, Hb1.
    + rewrite IH, Ha, Hb1, flat_map_app, <- app_assoc.
      now rewrite (compiled_prefix_all (leaves e)) by (now symmetry).
Qed.

Lemma compoundExpression_partial_args rec op subexprs b :
  Forall (fun e => forall b,
            args (fst (rec b e))
            = (args b ++ flat_map leaf_values (compiled_prefix (leaves e)))%list
            /\ snd (rec b e) = first_failure (leaves e)) subexprs ->
  args (fst (compoundExpression rec b subexprs op))
  = (args b
       ++ flat_map leaf_values
            (compiled_prefix (flat_map leaves subexprs)))%list.
Proof.
  intros H. unfold compoundExpression.
  pose proof (compound_loop_partial_args rec op subexprs H 0
                (append_query b "( ")) as Hl.
  destruct (compound_loop rec op 0 subexprs (append_query b "( "))
    as [b1 [err|]]; exact Hl.
Qed.

Lemma compile_partial_args expr :
  forall b,
    args (fst (addFilterExpressionToQuery b expr))
    = (args b ++ flat_map leaf_values (compiled_prefix (leaves expr)))%list.
Proof.
  induction expr as [l IH|l IH|f v|t] using FilterExpression_tree_ind;
    intros b.
  - rewrite compile_And. apply compoundExpression_partial_args.
    eapply Forall_impl; [|exact IH]. intros e He b0.
    split; [apply He | apply compile_error].
  - rewrite compile_Or. apply compoundExpression_partial_args.
    eapply Forall_impl; [|exact IH]. intros e He b0.
    split; [apply He | apply compile_error].
  - rewrite compile_Equals. cbn [leaves compiled_prefix leaf_error].
    unfold supported_key.
    destruct (strings_Join f "." =? "type"); [reflexivity|].
    destruct (strings_Join f "." =? "id"); [reflexivity|].
    destruct (strings_Join f "." =? "$index"); [reflexivity|].
    simpl. now rewrite app_nil_r.
  - simpl. now rewrite app_nil_r.
Qed.

(** X3. On every path, error included, the argument list after the call is
    the list before it followed by the values of the [Equals] nodes that
    come, in pre-order, before the first failing leaf (all of them when no
    leaf fails): the values of the nodes after the failure are never
    appended, and none before it is skipped. *)
Theorem arguments_stop_at_first_failure :
  forall expr b,
    args (fst (addFilterExpressionToQuery b expr))
    = (args b ++ flat_map leaf_values (compiled_prefix (leaves expr)))%list.
Proof. intros expr b. exact (compile_partial_args expr b). Qed.

Lemma children_succeed_iff children a :
  first_failure (flat_map leaves children) = None
  <-> exists frags a', compile_children a children = Some (frags, a').
Proof.
  split; [intros H; now apply children_succeed|].
  revert a. induction children as [|c cs IH]; intros a (frags & a' & H).
  - reflexivity.
  - simpl in H. cbn [flat_map]. rewrite first_failure_app.
    pose proof (compile_error c (Buffers "" a)) as Hc.
    destruct (addFilterExpressionToQuery (Buffers "" a) c) as [bc [err|]];
      [discriminate|].
    cbn [snd] in Hc. rewrite <- Hc.
    destruct (compile_children (args bc) cs) as [[fs a'']|] eqn:Hcs;
      [|discriminate].
    apply (IH (args bc)). eauto.
Qed.

Lemma children_fail_split children :
  forall err a,
    first_failure (flat_map leaves children) = Some err ->
    exists pre c post frags a1 bc,
      children = (pre ++ c :: post)%list /\
      compile_children a pre = Some (frags, a1) /\
      addFilterExpressionToQuery (Buffers "" a1) c = (bc, Some err).
Proof.
  induction children as [|c cs IH]; intros err a H; [discriminate|].
  cbn [flat_map] in H. rewrite first_failure_app in H.
  pose proof (compile_error c (Buffers "" a)) as Hc.
  destruct (addFilterExpressionToQuery (Buffers "" a) c) as [bc r] eqn:Ec.
  cbn [snd] in Hc. rewrite <- Hc in H. destruct r as [e|].
  - injection H as ->. exists [], c, cs, [], a, bc. now rewrite Ec.
  - destruct (IH err (args bc) H)
      as (pre & c' & post & frags & a1 & bc' & -> & Hpre & Hc').
    exists (c :: pre), c', post, (query bc :: frags), a1, bc'.
    repeat split; [|exact Hc']. simpl. now rewrite Ec, Hpre.
Qed.

(** X4. An [And] or [Or] node compiles exactly when its children all
    compile, one after the other, each from the argument list its
    predecessors left. *)
Theorem compound_compiles_iff_children_compile :
  forall children b,
    (snd (addFilterExpressionToQuery b (AndFilterExpression children)) = None
     <-> exists frags a',
           compile_children (args b) children = Some (frags, a')) /\
    (snd (addFilterExpressionToQuery b (OrFilterExpression children)) = None
     <-> exists frags a',
           compile_children (args b) children = Some (frags, a')).
Proof.
  intros children b.
  split; rewrite compile_error; apply children_succeed_iff.
Qed.

(** X5. When an [And] or [Or] node fails, the failure is that of one of its
    children: the children before it all compile, and the error the node
    returns is the error that child returns, unchanged. *)
Theorem compound_error_is_first_failing_child :
  forall children b b' err,
    addFilterExpressionToQuery b (AndFilterExpression children)
    = (b', Some err) \/
    addFilterExpressionToQuery b (OrFilterExpression children)
    = (b', Some err) ->
    exists pre c post frags a1 bc,
      children = (pre ++ c :: post)%list /\
      compile_children (args b) pre = Some (frags, a1) /\
      addFilterExpressionToQuery (Buffers "" a1) c = (bc, Some err).
Proof.
  intros children b b' err H.
  apply children_fail_split.
  destruct H as [H | H];
    [pose proof (compile_error (AndFilterExpression children) b) as E
    |pose proof (compile_error (OrFilterExpression children) b) as E];
    rewrite H in E; symmetry; exact E.
Qed.

(** ** The values never reach the query text *)

Lemma compound_loop_map_values f op subexprs :
  Forall (fun e => forall b,
            addFilterExpressionToQuery (map_args f b) (map_values f e)
            = (map_args f (fst (addFilterExpressionToQuery b e)),
               snd (addFilterExpressionToQuery b e))) subexprs ->
  forall i b,
    compound_loop addFilterExpressionToQuery op i
      (map (map_values f) subexprs) (map_args f b)
    = (map_args f
         (fst (compound_loop addFilterExpressionToQuery op i subexprs b)),
       snd (compound_loop addFilterExpressionToQuery op i subexprs b)).
Proof.
  induction 1 as [|e rest He _ IH]; intros i b.
  - reflexivity.
  - cbn [map]. rewrite !compound_loop_cons.
    assert (Hb1 : (if (0 <? i)%nat
                   then append_query (map_args f b) (" " ++ op ++ " ")
                   else map_args f b)
                  = map_args f (if (0 <? i)%nat
                                then append_query b (" " ++ op ++ " ")
                                else b))
      by now destruct (0 <? i)%nat.
    rewrite Hb1, He.
    destruct (addFilterExpressionToQuery _ e) as [b2 [err|]]; cbn [fst snd];
      [reflexivity | apply IH].
Qed.

Lemma compile_map_values f expr :
  forall b,
    addFilterExpressionToQuery (map_args f b) (map_values f expr)
    = (map_args f (fst (addFilterExpressionToQuery b expr)),
       snd (addFilterExpressionToQuery b expr)).
Proof.
  assert (Hcompound : forall op l b,
    Forall (fun e => forall b,
              addFilterExpressionToQuery (map_args f b) (map_values f e)
              = (map_args f (fst (addFilterExpressionToQuery b e)),
                 snd (addFilterExpressionToQuery b e))) l ->
    compoundExpression addFilterExpressionToQuery (map_args f b)
      (map (map_values f) l) op
    = (map_args f
         (fst (compoundExpression addFilterExpressionToQuery b l op)),
       snd (compoundExpression addFilterExpressionToQuery b l op))).
  { intros op l b H. unfold compoundExpression.
    change (append_query (map_args f b) "( ")
      with (map_args f (append_query b "( ")).
    rewrite (compound_loop_map_values f op l H).
    now destruct (compound_loop addFilterExpressionToQuery op 0 l
                    (append_query b "( ")) as [b1 [err|]]. }
  induction expr as [l IH|l IH|fs v|t] using FilterExpression_tree_ind;
    intros b.
  - cbn [map_values]. rewrite !compile_And. now apply Hcompound.
  - cbn [map_values]. rewrite !compile_Or. now apply Hcompound.
  - cbn [map_values]. rewrite !compile_Equals.
    assert (Harm : forall col,
      equals_arm (map_args f b) col (f v)
      = (map_args f (fst (equals_arm b col v)), snd (equals_arm b col v))).
    { intros col. unfold equals_arm, map_args, append_arg, append_query.
      cbn [query args fst snd].
      now rewrite length_map, map_app. }
    repeat match goal with
           | |- context [if ?c then _ else _] => destruct c
           end; try apply Harm; reflexivity.
  - reflexivity.
Qed.

(** X6. The values of the tree and the arguments already in the list never
    reach the query text: replacing every value by its image under any
    function [f] leaves the query text and the error as they are, and the
    argument list is the image under [f] of what it was. *)
Theorem values_never_reach_query_text :
  forall (f : scalar -> scalar) expr q a,
    addFilterExpressionToQuery {| query := q; args := map f a |}
      (map_values f expr)
    = ({| query :=
            query (fst (addFilterExpressionToQuery
                          {| query := q; args := a |} expr));
          args :=
            map f (args (fst (addFilterExpressionToQuery
                                {| query := q; args := a |} expr))) |},
       snd (addFilterExpressionToQuery {| query := q; args := a |} expr)).
Proof.
  intros f expr q a.
  exact (compile_map_values f expr {| query := q; args := a |}).
Qed.

(** ** Parentheses of the emitted text *)

Lemma paren_depth_app s t :
  forall d,
    paren_depth d (s ++ t)
    = match paren_depth d s with
      | Some d' => paren_depth d' t
      | None => None
      end.
Proof.
  induction s as [|c s IH]; intros d; cbn [append paren_depth];
    [reflexivity|].
  destruct (c =? "(")%char; [apply IH|].
  destruct (c =? ")")%char; [|apply IH].
  destruct d; [reflexivity | apply IH].
Qed.

Lemma paren_free_app s t :
  paren_free (s ++ t) = paren_free s && paren_free t.
Proof.
  induction s as [|c s IH]; simpl; [reflexivity|].
  now rewrite IH, !andb_assoc.
Qed.

Lemma opens_paren_free s : paren_free s = true -> opens s 0.
Proof.
  induction s as [|c s IH]; intros H d; cbn [paren_depth].
  - now rewrite Nat.add_0_r.
  - simpl in H. apply andb_prop in H. destruct H as [H Hs].
    apply andb_prop in H. destruct H as [Ho Hc].
    apply negb_true_iff in Ho, Hc. rewrite Ho, Hc. now apply IH.
Qed.

Lemma opens_app f1 k1 f2 k2 :
  opens f1 k1 -> opens f2 k2 -> opens (f1 ++ f2) (k1 + k2).
Proof.
  intros H1 H2 d. rewrite paren_depth_app, H1, H2. f_equal. lia.
Qed.

Lemma opens_open_paren frag k : opens frag k -> opens ("( " ++ frag) (S k).
Proof.
  intros H d. cbn [append paren_depth]. change ("(" =? "(")%char with true.
  change (" " =? "(")%char with false. change (" " =? ")")%char with false.
  cbv iota. rewrite H. f_equal. lia.
Qed.

Lemma opens_close_paren frag : opens frag 0 -> opens ("( " ++ frag ++ " )") 0.
Proof.
  intros H d. cbn [append paren_depth]. change ("(" =? "(")%char with true.
  change (" " =? "(")%char with false. change (" " =? ")")%char with false.
  cbv iota. rewrite paren_depth_app, H, !Nat.add_0_r. reflexivity.
Qed.

Section Parentheses.

Hypothesis schemaName_paren_free : paren_free schemaName = true.
Hypothesis recordsTableName_paren_free : paren_free recordsTableName = true.

Lemma equals_arm_opens b col v :
  paren_free col = true ->
  exists frag,
    query (fst (equals_arm b col v)) = query b ++ frag /\ opens frag 0.
Proof.
  intros Hcol. unfold equals_arm. cbn [fst query append_arg append_query].
  eexists. split; [reflexivity|]. apply opens_paren_free.
  rewrite !paren_free_app, schemaName_paren_free,
    recordsTableName_paren_free, Hcol.
  unfold Sprintf_dollar_d, fmt_d. simpl.
  induction (Nat.to_uint (length (args b) + 1)); simpl; auto.
Qed.

Lemma compound_loop_opens rec op subexprs :
  paren_free op = true ->
  Forall (opens_on rec) subexprs ->
  forall i b, exists frag k,
    query (fst (compound_loop rec op i subexprs b)) = query b ++ frag /\
    opens frag k /\
    (snd (compound_loop rec op i subexprs b) = None -> k = 0).
Proof.
  intros Hop. induction 1 as [|e rest He _ IH]; intros i b.
  - exists "", 0. cbn [compound_loop fst snd].
    rewrite string_app_nil_r. repeat split. now apply opens_paren_free.
  - rewrite compound_loop_cons.
    set (b1 := if (0 <? i)%nat then _ else b).
    assert (H1 : exists frag0, query b1 = query b ++ frag0 /\ opens frag0 0).
    { subst b1. destruct (0 <? i)%nat.
      - exists (" " ++ op ++ " "). split; [reflexivity|].
        apply opens_paren_free. simpl. now rewrite paren_free_app, Hop.
      - exists "". rewrite string_app_nil_r. split; [reflexivity|].
        now apply opens_paren_free. }
    destruct H1 as (frag0 & Hq0 & Ho0).
    destruct (He b1) as (frag1 & k1 & Hq1 & Ho1 & Hk1).
    destruct (rec b1 e) as [b2 [err|]]; cbn [fst snd] in *.
    + exists (frag0 ++ frag1), k1. rewrite Hq1, Hq0, string_app_assoc.
      repeat split; [|discriminate].
      change k1 with (0 + k1). now apply opens_app.
    + destruct (IH (S i) b2) as (frag2 & k2 & Hq2 & Ho2 & Hk2).
      exists (frag0 ++ frag1 ++ frag2), k2.
      rewrite Hq2, Hq1, Hq0, !string_app_assoc.
      repeat split; [|exact Hk2].
      change k2 with (0 + (0 + k2)). apply opens_app; [exact Ho0|].
      apply opens_app; [|exact Ho2]. now rewrite <- (Hk1 eq_refl).
Qed.

Lemma compoundExpression_opens rec op subexprs b :
  paren_free op = true ->
  Forall (opens_on rec) subexprs ->
  exists frag k,
    query (fst (compoundExpression rec b subexprs op)) = query b ++ frag /\
    opens frag k /\
    match snd (compoundExpression rec b subexprs op) with
    | None => k = 0
    | Some _ => 1 <= k
    end.
Proof.
  intros Hop H. unfold compoundExpression.
  destruct (compound_loop_opens rec op subexprs Hop H 0 (append_query b "( "))
    as (frag & k & Hq & Ho & Hk).
  destruct (compound_loop rec op 0 subexprs (append_query b "( "))
    as [b1 [err|]]; cbn [fst snd query append_query] in *.
  - exists ("( " ++ frag), (S k). rewrite Hq, string_app_assoc.
    repeat split; [now apply opens_open_paren | lia].
  - exists ("( " ++ frag ++ " )"), 0.
    rewrite Hq, !string_app_assoc.
    repeat split. apply opens_close_paren. now rewrite <- (Hk eq_refl).
Qed.

Lemma compile_opens expr :
  forall b, exists frag k,
    query (fst (addFilterExpressionToQuery b expr)) = query b ++ frag /\
    opens frag k /\
    match snd (addFilterExpressionToQuery b expr), expr with
    | None, _ => k = 0
    | Some _, (AndFilterExpression _ | OrFilterExpression _) => 1 <= k
    | Some _, _ => k = 0
    end.
Proof.
  assert (Hweak : forall e,
    (forall b, exists frag k,
       query (fst (addFilterExpressionToQuery b e)) = query b ++ frag /\
       opens frag k /\
       match snd (addFilterExpressionToQuery b e), e with
       | None, _ => k = 0
       | Some _, (AndFilterExpression _ | OrFilterExpression _) => 1 <= k
       | Some _, _ => k = 0
       end) ->
    opens_on addFilterExpressionToQuery e).
  { intros e He b. destruct (He b) as (frag & k & Hq & Ho & Hk).
    exists frag, k. repeat split; [exact Hq | apply Ho |].
    intros Hn. rewrite Hn in Hk. exact Hk. }
  induction expr as [l IH|l IH|f v|t] using FilterExpression_tree_ind;
    intros b.
  - rewrite compile_And.
    destruct (compoundExpression_opens addFilterExpressionToQuery "AND" l b
                eq_refl (Forall_impl _ Hweak IH))
      as (frag & k & Hq & Ho & Hk).
    exists frag, k. repeat split; [exact Hq | apply Ho |].
    now destruct (snd (compoundExpression _ b l "AND")).
  - rewrite compile_Or.
    destruct (compoundExpression_opens addFilterExpressionToQuery "OR" l b
                eq_refl (Forall_impl _ Hweak IH))
      as (frag & k & Hq & Ho & Hk).
    exists frag, k. repeat split; [exact Hq | apply Ho |].
    now destruct (snd (compoundExpression _ b l "OR")).
  - rewrite compile_Equals.
    assert (Harm : forall col, paren_free col = true ->
      exists frag k,
        query (fst (equals_arm b col v)) = query b ++ frag /\
        opens frag k /\ k = 0).
    { intros col Hcol.
      destruct (equals_arm_opens b col v Hcol) as (frag & Hq & Ho).
      now exists frag, 0. }
    destruct (strings_Join f "." =? "type");
      [exact (Harm ".type = " eq_refl)|].
    destruct (strings_Join f "." =? "id");
      [exact (Harm ".id = " eq_refl)|].
    destruct (strings_Join f "." =? "$index");
      [exact (Harm ".index_cidr >>= " eq_refl)|].
    exists "", 0. cbn [fst snd]. rewrite string_app_nil_r.
    repeat split. now apply opens_paren_free.
  - exists "", 0. cbn [addFilterExpressionToQuery fst snd].
    rewrite string_app_nil_r. repeat split. now apply opens_paren_free.
Qed.

End Parentheses.

(** X7. With schema and table names free of parentheses, the text a call
    appends never closes a parenthesis it did not open. When the call
    succeeds the appended text is balanced; when the call fails on an [And]
    or [Or] node the appended text leaves at least one parenthesis open, and
    when it fails on a leaf nothing is opened. *)
Theorem appended_text_parentheses :
  paren_free schemaName = true ->
  paren_free recordsTableName = true ->
  forall expr b, exists frag k,
    query (fst (addFilterExpressionToQuery b expr)) = query b ++ frag /\
    (forall d, paren_depth d frag = Some (d + k)) /\
    match snd (addFilterExpressionToQuery b expr), expr with
    | None, _ => k = 0
    | Some _, (AndFilterExpression _ | OrFilterExpression _) => 1 <= k
    | Some _, _ => k = 0
    end.
Proof.
  intros Hs Ht expr b. exact (compile_opens Hs Ht expr b).
Qed.

(** ** Placeholders of the text left by a failed call *)

Lemma prefixed_app sep xs ys :
  prefixed sep (xs ++ ys) = prefixed sep xs ++ prefixed sep ys.
Proof.
  induction xs as [|x xs IH]; cbn [app prefixed]; [reflexivity|].
  now rewrite IH, !string_app_assoc.
Qed.

Lemma compile_children_args children :
  forall a frags a',
    compile_children a children = Some (frags, a') ->
    a' = (a ++ flat_map leaf_values (flat_map leaves children))%list.
Proof.
  induction children as [|c cs IH]; intros a frags a' H.
  - injection H as _ <-. simpl. now rewrite app_nil_r.
  - simpl in H.
    destruct (addFilterExpressionToQuery (Buffers "" a) c) as [bc [err|]]
      eqn:Ec; [discriminate|].
    destruct (compile_children (args bc) cs) as [[fs a'']|] eqn:Ecs;
      [|discriminate].
    injection H as _ <-. rewrite (IH _ _ _ Ecs), (compile_args c _ _ Ec).
    cbn [args flat_map]. now rewrite flat_map_app, <- app_assoc.
Qed.

Section Placeholders_on_failure.

Hypothesis schemaName_dollar_free : dollar_free schemaName = true.
Hypothesis recordsTableName_dollar_free : dollar_free recordsTableName = true.

Lemma children_emit_tail op children :
  dollar_free op = true ->
  forall a frags a' tail ns,
    compile_children a children = Some (frags, a') ->
    no_leading_digit tail ->
    emits tail ns ->
    emits (prefixed (" " ++ op ++ " ") frags ++ tail)
          (seq (S (length a))
               (length (flat_map leaf_values (flat_map leaves children)))
             ++ ns).
Proof.
  intros Hop. pose proof (separator_dollar_free op Hop) as Hsep.
  set (sep := " " ++ op ++ " ") in *.
  induction children as [|c cs IH]; intros a frags a' tail ns H Htail Hns.
  - injection H as <- _. exact Hns.
  - simpl in H.
    destruct (addFilterExpressionToQuery (Buffers "" a) c) as [bc [err|]]
      eqn:Ec; [discriminate|].
    destruct (compile_children (args bc) cs) as [[fs a'']|] eqn:Ecs;
      [|discriminate].
    injection H as <- _.
    cbn [prefixed flat_map].
    rewrite flat_map_app, length_app, seq_app, <- app_assoc.
    rewrite !string_app_assoc.
    apply emits_prefix; [exact Hsep|].
    apply emits_app.
    + exact (compile_emits schemaName_dollar_free
               recordsTableName_dollar_free c a bc Ec).
    + specialize (IH (args bc) fs a'' tail ns Ecs Htail Hns).
      rewrite (compile_args c _ _ Ec), length_app in IH. exact IH.
    + destruct fs; [exact Htail | reflexivity].
Qed.

Lemma compile_emits_on_error expr :
  forall a b' err,
    addFilterExpressionToQuery (Buffers "" a) expr = (b', Some err) ->
    emits (query b')
          (seq (S (length a))
               (length (flat_map leaf_values
                          (compiled_prefix (leaves expr))))).
Proof.
  assert (Hcompound : forall op l a b' err,
    dollar_free op = true ->
    Forall (fun e => forall a b' err,
              addFilterExpressionToQuery (Buffers "" a) e = (b', Some err) ->
              emits (query b')
                    (seq (S (length a))
                         (length (flat_map leaf_values
                                    (compiled_prefix (leaves e)))))) l ->
    compoundExpression addFilterExpressionToQuery (Buffers "" a) l op
    = (b', Some err) ->
    emits (query b')
          (seq (S (length a))
               (length (flat_map leaf_values
                          (compiled_prefix (flat_map leaves l)))))).
  { intros op l a b' err Hop IH H.
    pose proof (separator_dollar_free op Hop) as Hsep.
    assert (Hfail : first_failure (flat_map leaves l) = Some err).
    { rewrite <- (compoundExpression_error addFilterExpressionToQuery op l
                    (Buffers "" a)).
      - now rewrite H.
      - apply Forall_forall. intros e _. apply compile_error. }
    destruct (children_fail_split l err a Hfail)
      as (pre & c & post & frags & a1 & bc & -> & Hpre & Hc).
    rewrite (compoundExpression_failure op pre c post (Buffers "" a)
               frags a1 bc err Hpre Hc) in H.
    injection H as <-. cbn [query args].
    change ("" ++ ?x) with x.
    assert (Hc_emits : emits (query bc)
              (seq (S (length a1))
                   (length (flat_map leaf_values
                              (compiled_prefix (leaves c)))))).
    { apply Forall_forall with (x := c) in IH;
        [exact (IH a1 bc err Hc) | apply in_elt]. }
    assert (Hpre_ok : first_failure (flat_map leaves pre) = None).
    { apply (children_succeed_iff pre a). eauto. }
    assert (Hc_fail : first_failure (leaves c) = Some err).
    { rewrite <- (compile_error c (Buffers "" a1)). now rewrite Hc. }
    rewrite flat_map_app, compiled_prefix_app, Hpre_ok.
    cbn [flat_map]. rewrite compiled_prefix_app, Hc_fail.
    rewrite flat_map_app, length_app, seq_app.
    pose proof (compile_children_args pre a frags a1 Hpre) as Ha1.
    assert (Hlen : length a1
                   = length a
                     + length (flat_map leaf_values (flat_map leaves pre))).
    { now rewrite Ha1, length_app. }
    rewrite Hlen in Hc_emits.
    assert (Htail : emits (" " ++ op ++ " " ++ query bc ++ "")
              (seq (S (length a)
                    + length (flat_map leaf_values (flat_map leaves pre)))
                   (length (flat_map leaf_values
                              (compiled_prefix (leaves c)))))).
    { rewrite string_app_nil_r.
      change (" " ++ op ++ " " ++ query bc)
        with (" " ++ (op ++ " " ++ query bc)).
      rewrite <- (string_app_assoc op " " (query bc)).
      change (" " ++ (op ++ " ") ++ query bc)
        with ((" " ++ op ++ " ") ++ query bc).
      apply emits_prefix; [exact Hsep | exact Hc_emits]. }
    pose proof (children_emit_tail op pre Hop a frags a1
                  (" " ++ op ++ " " ++ query bc ++ "") _ Hpre
                  eq_refl Htail) as Hall.
    apply (emits_prefix "( "); [reflexivity|].
    destruct frags as [|f fs].
    - cbn [app String.concat]. cbn [prefixed] in Hall.
      change ("" ++ ?x) with x in Hall.
      rewrite string_app_nil_r in Hall.
      change (" " ++ op ++ " " ++ query bc)
        with (" " ++ (op ++ " " ++ query bc)) in Hall.
      rewrite <- (string_app_assoc op " " (query bc)) in Hall.
      change (" " ++ (op ++ " ") ++ query bc)
        with ((" " ++ op ++ " ") ++ query bc) in Hall.
      now apply emits_prefix in Hall.
    - change ((f :: fs) ++ [query bc])%list
        with (f :: (fs ++ [query bc]))%list.
      rewrite concat_cons_prefixed, prefixed_app.
      cbn [prefixed] in Hall |- *.
      set (sep := " " ++ op ++ " ") in *.
      rewrite !string_app_assoc in Hall.
      apply emits_prefix in Hall; [|exact Hsep].
      change (" " ++ op ++ " " ++ query bc ++ "")
        with (" " ++ (op ++ " " ++ query bc ++ "")) in Hall.
      rewrite <- (string_app_assoc op " " (query bc ++ "")) in Hall.
      exact Hall. }
  induction expr as [l IH|l IH|f v|t] using FilterExpression_tree_ind;
    intros a b' err.
  - rewrite compile_And. now apply Hcompound.
  - rewrite compile_Or. now apply Hcompound.
  - intros H.
    assert (Hf : first_failure (leaves (EqualsFilterExpression f v))
                 = Some err).
    { rewrite <- (compile_error _ (Buffers "" a)). now rewrite H. }
    rewrite compile_Equals in H. cbn [leaves first_failure] in Hf.
    cbn [leaves compiled_prefix].
    destruct (leaf_error (LeafEquals f v)); [|discriminate].
    unfold equals_arm in H.
    destruct (strings_Join f "." =? "type"); [discriminate|].
    destruct (strings_Join f "." =? "id"); [discriminate|].
    destruct (strings_Join f "." =? "$index"); [discriminate|].
    injection H as <- _. now apply emits_dollar_free.
  - intros [= <- _]. now apply emits_dollar_free.
Qed.

End Placeholders_on_failure.

(** X8. When compilation fails, what it leaves in the buffers is still
    consistent: the text appended to the query before the failure holds one
    placeholder for each value appended to the argument list, numbered
    [len(args)+1], [len(args)+2], ... in this order. The schema and table
    names are identifiers without ['$']. *)
Theorem partial_text_numbers_partial_arguments :
  dollar_free schemaName = true ->
  dollar_free recordsTableName = true ->
  forall expr b b' err,
    addFilterExpressionToQuery b expr = (b', Some err) ->
    exists frag news,
      query b' = query b ++ frag /\
      args b' = (args b ++ news)%list /\
      placeholders frag = seq (length (args b) + 1) (length news).
Proof.
  intros Hs Ht expr b b' err H.
  pose proof (compile_partial_args expr b) as Ha. rewrite H in Ha.
  cbn [fst] in Ha.
  rewrite compile_from_empty in H.
  destruct (addFilterExpressionToQuery (Buffers "" (args b)) expr)
    as [b0 r] eqn:E.
  cbn [fst snd] in H. injection H as <- ->.
  pose proof (compile_emits_on_error Hs Ht expr _ _ _ E "" I) as Hp.
  rewrite string_app_nil_r in Hp. cbn [scan flush] in Hp.
  rewrite app_nil_r in Hp.
  exists (query b0),
    (flat_map leaf_values (compiled_prefix (leaves expr))).
  repeat split.
  - exact Ha.
  - unfold placeholders. now rewrite Nat.add_1_r.
Qed.

Lemma first_failure_In xs err :
  first_failure xs = Some err ->
  exists x, In x xs /\ leaf_error x = Some err.
Proof.
  induction xs as [|x xs IH]; simpl; [discriminate|].
  destruct (leaf_error x) as [e|] eqn:Hx.
  - intros [= ->]. exists x. auto.
  - intros H. destruct (IH H) as (y & Hy & Hey). exists y. auto.
Qed.

(** X9. Every error a call returns comes from a leaf of the tree: it is
    either the unsupported-field error of an [Equals] node of the tree whose
    key is not supported, carrying the field path of that node, or the
    unsupported-expression error of a node of the tree of another variant,
    carrying its dynamic type; and its message tells which, since no message
    of one kind is a message of the other. *)
Theorem error_names_a_leaf_of_the_tree :
  forall expr b err,
    snd (addFilterExpressionToQuery b expr) = Some err ->
    (exists Fields Value,
       In (LeafEquals Fields Value) (leaves expr) /\
       supported_key (strings_Join Fields ".") = false /\
       err = Errorf_unsupported_equals Fields /\
       forall dynamic_type,
         err <> Errorf_unsupported_expression dynamic_type) \/
    (exists dynamic_type,
       In (LeafOther dynamic_type) (leaves expr) /\
       err = Errorf_unsupported_expression dynamic_type /\
       forall Fields, err <> Errorf_unsupported_equals Fields).
Proof.
  intros expr b err H. rewrite compile_error in H.
  destruct (first_failure_In _ _ H) as ([f v|t] & Hin & Hx);
    cbn [leaf_error] in Hx.
  - left. exists f, v.
    destruct (supported_key (strings_Join f ".")); [discriminate|].
    injection Hx as <-. repeat split; [exact Hin|].
    intros t E. discriminate E.
  - right. exists t. injection Hx as <-. repeat split; [exact Hin|].
    intros f E. discriminate E.
Qed.

(** C2, as the code has it. When compilation returns an error, what was
    appended before the failure stays in the buffers. The argument list
    holds, after the arguments it had, the values of the [Equals] nodes that
    come before the first failing leaf in pre-order. If the root of the tree
    is a leaf ([Equals] or another variant) both buffers are unchanged; if it
    is an [And] or [Or] node, its children up to some child [c] compiled,
    [c] failed, and the query has been extended by the opening ["( "], the
    fragments of those children joined by the separator, the separator
    before [c] and what [c] emitted before failing, without the closing
    [" )"]. *)
Theorem error_leaves_partial_output :
  forall expr b b' err,
    addFilterExpressionToQuery b expr = (b', Some err) ->
    args b'
    = (args b ++ flat_map leaf_values (compiled_prefix (leaves expr)))%list /\
    match expr with
    | AndFilterExpression children =>
        exists pre c post frags a1 bc,
          children = (pre ++ c :: post)%list /\
          compile_children (args b) pre = Some (frags, a1) /\
          addFilterExpressionToQuery (Buffers "" a1) c = (bc, Some err) /\
          query b'
          = query b ++ "( " ++ String.concat " AND " (frags ++ [query bc])
    | OrFilterExpression children =>
        exists pre c post frags a1 bc,
          children = (pre ++ c :: post)%list /\
          compile_children (args b) pre = Some (frags, a1) /\
          addFilterExpressionToQuery (Buffers "" a1) c = (bc, Some err) /\
          query b'
          = query b ++ "( " ++ String.concat " OR " (frags ++ [query bc])
    | EqualsFilterExpression _ _ | OtherFilterExpression _ => b' = b
    end.
Proof.
  intros expr b b' err H. split.
  { pose proof (compile_partial_args expr b) as Ha.
    rewrite H in Ha. exact Ha. }
  assert (Hcompound : forall op l,
    first_failure (flat_map leaves l) = Some err ->
    compoundExpression addFilterExpressionToQuery b l op = (b', Some err) ->
    exists pre c post frags a1 bc,
      l = (pre ++ c :: post)%list /\
      compile_children (args b) pre = Some (frags, a1) /\
      addFilterExpressionToQuery (Buffers "" a1) c = (bc, Some err) /\
      query b'
      = query b ++ "( "
          ++ String.concat (" " ++ op ++ " ") (frags ++ [query bc])).
  { intros op l Hfail Hl.
    destruct (children_fail_split l err (args b) Hfail)
      as (pre & c & post & frags & a1 & bc & -> & Hpre & Hc).
    rewrite (compoundExpression_failure op pre c post b frags a1 bc err
               Hpre Hc) in Hl.
    injection Hl as <-.
    exists pre, c, post, frags, a1, bc. repeat split; assumption. }
  pose proof (compile_error expr b) as He. rewrite H in He. cbn [snd] in He.
  symmetry in He.
  destruct expr as [l|l|f v|t].
  - rewrite compile_And in H. exact (Hcompound "AND" l He H).
  - rewrite compile_Or in H. exact (Hcompound "OR" l He H).
  - rewrite compile_Equals in H. unfold equals_arm in H.
    destruct (strings_Join f "." =? "type"); [discriminate|].
    destruct (strings_Join f "." =? "id"); [discriminate|].
    destruct (strings_Join f "." =? "$index"); [discriminate|].
    now injection H as <- _.
  - cbn [addFilterExpressionToQuery] in H. now injection H as <- _.
Qed.

End Postgres.

Arguments AndFilterExpression {scalar} subexprs.
Arguments OrFilterExpression {scalar} subexprs.
Arguments EqualsFilterExpression {scalar} Fields Value.
Arguments OtherFilterExpression {scalar} dynamic_type.
Arguments Buffers {scalar} query args.
Arguments query {scalar} b.
Arguments args {scalar} b.
Arguments LeafEquals {scalar} Fields Value.
Arguments LeafOther {scalar} dynamic_type.
Arguments addFilterExpressionToQuery {scalar} schemaName recordsTableName b expr.
Arguments compile_children {scalar} schemaName recordsTableName a children.
Arguments leaves {scalar} expr.
Arguments leaf_error {scalar} x.
Arguments values_in_preorder {scalar} expr.
(** ** The properties at concrete inputs

    The records table of the backend is [pomerium.records]; the values are
    strings. *)

Lemma placeholders_number_the_new_arguments_witness :
  dollar_free "pomerium" = true /\
  dollar_free "records" = true /\
  addFilterExpressionToQuery "pomerium" "records"
    (Buffers "WHERE " ["k"])
    (OrFilterExpression
       [AndFilterExpression [EqualsFilterExpression ["id"] "a"];
        EqualsFilterExpression ["type"] "b"])
  = (Buffers
       "WHERE ( ( pomerium.records.id = $2 ) OR pomerium.records.type = $3 )"
       ["k"; "a"; "b"], None) /\
  exists frag news,
    "WHERE ( ( pomerium.records.id = $2 ) OR pomerium.records.type = $3 )"
    = "WHERE " ++ frag /\
    ["k"; "a"; "b"] = (["k"] ++ news)%list /\
    placeholders frag = seq (1 + 1) (length news) /\
    length (placeholders frag) = length news /\
    NoDup (placeholders frag).
Proof.
  split; [reflexivity|]. split; [reflexivity|]. split; [reflexivity|].
  exact (placeholders_number_the_new_arguments string "pomerium" "records"
           eq_refl eq_refl
           (OrFilterExpression
              [AndFilterExpression [EqualsFilterExpression ["id"] "a"];
               EqualsFilterExpression ["type"] "b"])
           (Buffers "WHERE " ["k"]) _ eq_refl).
Defined.

(** C2 fails on the code: the second child of the [And] node is rejected
    after the opening parenthesis, the fragment of the first child and the
    separator were appended to the query and the value of the first child to
    the argument list, and the caller sees all of it. *)
Lemma error_exposes_partial_output :
  addFilterExpressionToQuery "pomerium" "records"
    (Buffers "" [])
    (AndFilterExpression
       [EqualsFilterExpression ["type"] "x";
        EqualsFilterExpression ["nope"] "y"])
  = (Buffers "( pomerium.records.type = $1 AND " ["x"],
     Some "unsupported equals filter: [nope]") /\
  ~ (forall (expr : FilterExpression string) b b' err,
       addFilterExpressionToQuery "pomerium" "records" b expr = (b', Some err) ->
       query b' = query b /\ args b' = args b).
Proof.
  split; [reflexivity|].
  intros H.
  specialize (H (AndFilterExpression
                   [EqualsFilterExpression ["type"] "x";
                    EqualsFilterExpression ["nope"] "y"])
                (Buffers "" []) _ _ eq_refl).
  destruct H as [H _]. discriminate H.
Qed.

Lemma error_leaves_partial_output_witness :
  addFilterExpressionToQuery "pomerium" "records"
    (Buffers "WHERE " ["k"])
    (AndFilterExpression
       [EqualsFilterExpression ["type"] "x";
        OrFilterExpression
          [EqualsFilterExpression ["id"] "y";
           EqualsFilterExpression ["nope"] "z"];
        EqualsFilterExpression ["$index"] "w"])
  = (Buffers
       "WHERE ( pomerium.records.type = $2 AND ( pomerium.records.id = $3 OR "
       ["k"; "x"; "y"],
     Some "unsupported equals filter: [nope]") /\
  ["k"; "x"; "y"] = (["k"] ++ ["x"; "y"])%list /\
  exists pre c post frags a1 bc,
    [EqualsFilterExpression ["type"] "x";
     OrFilterExpression
       [EqualsFilterExpression ["id"] "y";
        EqualsFilterExpression ["nope"] "z"];
     EqualsFilterExpression ["$index"] "w"]
    = (pre ++ c :: post)%list /\
    compile_children "pomerium" "records" ["k"] pre = Some (frags, a1) /\
    addFilterExpressionToQuery "pomerium" "records" (Buffers "" a1) c
    = (bc, Some "unsupported equals filter: [nope]") /\
    "WHERE ( pomerium.records.type = $2 AND ( pomerium.records.id = $3 OR "
    = "WHERE " ++ "( " ++ String.concat " AND " (frags ++ [query bc]).
Proof.
  split; [reflexivity|].
  exact (error_leaves_partial_output string "pomerium" "records"
           (AndFilterExpression
              [EqualsFilterExpression ["type"] "x";
               OrFilterExpression
                 [EqualsFilterExpression ["id"] "y";
                  EqualsFilterExpression ["nope"] "z"];
               EqualsFilterExpression ["$index"] "w"])
           (Buffers "WHERE " ["k"]) _ _ eq_refl).
Defined.

Lemma index_key_uses_containment_witness :
  strings_Join ["$index"] "." = "$index" /\
  dollar_free "pomerium" = true /\
  dollar_free "records" = true /\
  addFilterExpressionToQuery "pomerium" "records"
    (Buffers "WHERE " ["a"; "b"; "c"])
    (EqualsFilterExpression ["$index"] "10.0.0.1")
  = (Buffers "WHERE pomerium.records.index_cidr >>= $4"
       ["a"; "b"; "c"; "10.0.0.1"], None) /\
  placeholders "pomerium.records.index_cidr >>= $4" = [4].
Proof.
  split; [reflexivity|]. split; [reflexivity|]. split; [reflexivity|].
  split.
  - exact (proj1 (index_key_uses_containment string "pomerium" "records"
                    ["$index"] "10.0.0.1"
                    (Buffers "WHERE " ["a"; "b"; "c"]) eq_refl)).
  - exact (proj2 (index_key_uses_containment string "pomerium" "records"
                    ["$index"] "10.0.0.1"
                    (Buffers "WHERE " ["a"; "b"; "c"]) eq_refl)
             eq_refl eq_refl).
Defined.

(** C4 fails on the code: the tree holds an [Equals] node with the unknown
    field path [["nope"]], but a nil child comes first and the compiler
    stops there, with the unsupported-expression error. *)
Lemma unsupported_field_masked_by_earlier_variant :
  In (LeafEquals ["nope"] "v")
     (leaves (AndFilterExpression
                [OtherFilterExpression "<nil>";
                 EqualsFilterExpression ["nope"] "v"])) /\
  supported_key (strings_Join ["nope"] ".") = false /\
  snd (addFilterExpressionToQuery "pomerium" "records" (Buffers "" [])
         (AndFilterExpression
            [OtherFilterExpression "<nil>";
             EqualsFilterExpression ["nope"] "v"]))
  = Some "unsupported filter expression: <nil>" /\
  forall Fields,
    snd (addFilterExpressionToQuery "pomerium" "records" (Buffers "" [])
           (AndFilterExpression
              [OtherFilterExpression "<nil>";
               EqualsFilterExpression ["nope"] "v"]))
    <> Some (Errorf_unsupported_equals Fields).
Proof.
  split; [simpl; auto|]. split; [reflexivity|]. split; [reflexivity|].
  intros Fields H. cbv in H. discriminate H.
Qed.

Lemma unsupported_field_fails_witness :
  leaves (OrFilterExpression
            [EqualsFilterExpression ["type"] "a";
             AndFilterExpression
               [EqualsFilterExpression ["kind"; "sub"] "b";
                OtherFilterExpression "<nil>"]])
  = ([LeafEquals ["type"] "a"]
       ++ LeafEquals ["kind"; "sub"] "b" :: [LeafOther "<nil>"])%list /\
  supported_key (strings_Join ["kind"; "sub"] ".") = false /\
  Forall (fun x => leaf_error x = None) [LeafEquals ["type"] "a"] /\
  snd (addFilterExpressionToQuery "pomerium" "records" (Buffers "" [])
         (OrFilterExpression
            [EqualsFilterExpression ["type"] "a";
             AndFilterExpression
               [EqualsFilterExpression ["kind"; "sub"] "b";
                OtherFilterExpression "<nil>"]]))
  = Some "unsupported equals filter: [kind sub]".
Proof.
  split; [reflexivity|]. split; [reflexivity|].
  assert (Hpre : Forall (fun x : leaf string => leaf_error x = None)
                        [LeafEquals ["type"] "a"])
    by (constructor; [reflexivity | constructor]).
  split; [exact Hpre|].
  exact (proj2 (unsupported_field_fails string "pomerium" "records"
                  (OrFilterExpression
                     [EqualsFilterExpression ["type"] "a";
                      AndFilterExpression
                        [EqualsFilterExpression ["kind"; "sub"] "b";
                         OtherFilterExpression "<nil>"]])
                  (Buffers "" [])
                  [LeafEquals ["type"] "a"] ["kind"; "sub"] "b"
                  [LeafOther "<nil>"] eq_refl eq_refl) Hpre).
Defined.

(** C5 fails on the code: the tree holds a nil child, but an [Equals] node
    with an unknown field path comes first and the compiler stops there,
    with the unsupported-field error. *)
Lemma unsupported_variant_masked_by_earlier_field :
  In (LeafOther "<nil>")
     (leaves (AndFilterExpression
                [EqualsFilterExpression ["nope"] "v";
                 OtherFilterExpression "<nil>"])) /\
  snd (addFilterExpressionToQuery "pomerium" "records" (Buffers "" [])
         (AndFilterExpression
            [EqualsFilterExpression ["nope"] "v";
             OtherFilterExpression "<nil>"]))
  = Some "unsupported equals filter: [nope]" /\
  forall dynamic_type,
    snd (addFilterExpressionToQuery "pomerium" "records" (Buffers "" [])
           (AndFilterExpression
              [EqualsFilterExpression ["nope"] "v";
               OtherFilterExpression "<nil>"]))
    <> Some (Errorf_unsupported_expression dynamic_type).
Proof.
  split; [simpl; auto|]. split; [reflexivity|].
  intros dynamic_type H. cbv in H. discriminate H.
Qed.

Lemma unsupported_variant_fails_witness :
  leaves (OrFilterExpression
            [EqualsFilterExpression ["type"] "a";
             AndFilterExpression
               [OtherFilterExpression "<nil>";
                EqualsFilterExpression ["nope"] "b"]])
  = ([LeafEquals ["type"] "a"]
       ++ LeafOther "<nil>" :: [LeafEquals ["nope"] "b"])%list /\
  Forall (fun x => leaf_error x = None) [LeafEquals ["type"] "a"] /\
  snd (addFilterExpressionToQuery "pomerium" "records" (Buffers "" [])
         (OrFilterExpression
            [EqualsFilterExpression ["type"] "a";
             AndFilterExpression
               [OtherFilterExpression "<nil>";
                EqualsFilterExpression ["nope"] "b"]]))
  = Some "unsupported filter expression: <nil>".
Proof.
  split; [reflexivity|].
  assert (Hpre : Forall (fun x : leaf string => leaf_error x = None)
                        [LeafEquals ["type"] "a"])
    by (constructor; [reflexivity | constructor]).
  split; [exact Hpre|].
  exact (proj2 (unsupported_variant_fails string "pomerium" "records"
                  (OrFilterExpression
                     [EqualsFilterExpression ["type"] "a";
                      AndFilterExpression
                        [OtherFilterExpression "<nil>";
                         EqualsFilterExpression ["nope"] "b"]])
                  (Buffers "" [])
                  [LeafEquals ["type"] "a"] "<nil>"
                  [LeafEquals ["nope"] "b"] eq_refl) Hpre).
Defined.

Lemma compound_joins_children_in_order_witness :
  compile_children "pomerium" "records" ["k"]
    [EqualsFilterExpression ["type"] "x";
     AndFilterExpression [EqualsFilterExpression ["id"] "y"];
     EqualsFilterExpression ["$index"] "z"]
  = Some (["pomerium.records.type = $2";
           "( pomerium.records.id = $3 )";
           "pomerium.records.index_cidr >>= $4"],
          ["k"; "x"; "y"; "z"]) /\
  addFilterExpressionToQuery "pomerium" "records" (Buffers "WHERE " ["k"])
    (OrFilterExpression
       [EqualsFilterExpression ["type"] "x";
        AndFilterExpression [EqualsFilterExpression ["id"] "y"];
        EqualsFilterExpression ["$index"] "z"])
  = (Buffers
       ("WHERE " ++ "( "
          ++ String.concat " OR "
               ["pomerium.records.type = $2";
                "( pomerium.records.id = $3 )";
                "pomerium.records.index_cidr >>= $4"]
          ++ " )")
       ["k"; "x"; "y"; "z"], None).
Proof.
  split; [reflexivity|].
  exact (proj2 (proj1 (compound_joins_children_in_order
                         string "pomerium" "records")
                  [EqualsFilterExpression ["type"] "x";
                   AndFilterExpression [EqualsFilterExpression ["id"] "y"];
                   EqualsFilterExpression ["$index"] "z"]
                  (Buffers "WHERE " ["k"]) _ _ eq_refl)).
Defined.

Lemma parameters_follow_preorder_witness :
  addFilterExpressionToQuery "pomerium" "records" (Buffers "" ["k"])
    (OrFilterExpression
       [AndFilterExpression
          [EqualsFilterExpression ["id"] "a";
           OrFilterExpression [EqualsFilterExpression ["$index"] "b"]];
        EqualsFilterExpression ["type"] "c"])
  = (Buffers
       "( ( pomerium.records.id = $2 AND ( pomerium.records.index_cidr >>= $3 ) ) OR pomerium.records.type = $4 )"
       ["k"; "a"; "b"; "c"], None) /\
  ["k"; "a"; "b"; "c"] = (["k"] ++ ["a"; "b"; "c"])%list.
Proof.
  split; [reflexivity|].
  exact (parameters_follow_preorder string "pomerium" "records"
           (OrFilterExpression
              [AndFilterExpression
                 [EqualsFilterExpression ["id"] "a";
                  OrFilterExpression [EqualsFilterExpression ["$index"] "b"]];
               EqualsFilterExpression ["type"] "c"])
           (Buffers "" ["k"]) _ eq_refl).
Defined.

(** C8 fails on the code: the compound with no child emits ["( "] and
    [" )"], which makes two spaces between the parentheses, not one. *)
Lemma empty_compound_has_two_spaces :
  addFilterExpressionToQuery "pomerium" "records" (Buffers "" [])
    (@AndFilterExpression string [])
  = (Buffers "(  )" [], None) /\
  addFilterExpressionToQuery "pomerium" "records" (Buffers "" [])
    (@OrFilterExpression string [])
  = (Buffers "(  )" [], None) /\
  query (fst (addFilterExpressionToQuery "pomerium" "records" (Buffers "" [])
                (@AndFilterExpression string []))) <> "( )" /\
  query (fst (addFilterExpressionToQuery "pomerium" "records" (Buffers "" [])
                (@OrFilterExpression string []))) <> "( )".
Proof.
  split; [reflexivity|]. split; [reflexivity|].
  split; intros H; discriminate H.
Qed.

Lemma equals_compiles_iff_singleton_key_witness :
  (["a"; "b"] = [] \/ 2 <= length ["a"; "b"]) /\
  addFilterExpressionToQuery "pomerium" "records" (Buffers "WHERE " ["k"])
    (EqualsFilterExpression ["a"; "b"] "v")
  = (Buffers "WHERE " ["k"], Some "unsupported equals filter: [a b]").
Proof.
  assert (H : ["a"; "b"] = [] \/ 2 <= length ["a"; "b"])
    by (right; apply le_n).
  split; [exact H|].
  exact (proj2 (equals_compiles_iff_singleton_key string "pomerium" "records"
                  ["a"; "b"] "v" (Buffers "WHERE " ["k"])) H).
Defined.

Lemma call_only_appends_witness :
  compile_children "pomerium" "records" []
    [EqualsFilterExpression ["type"] "x"]
  = Some (["pomerium.records.type = $1"], ["x"]) /\
  addFilterExpressionToQuery "pomerium" "records" (Buffers "" ["x"])
    (OrFilterExpression
       [EqualsFilterExpression ["id"] "y";
        EqualsFilterExpression ["nope"] "z"])
  = (Buffers "( pomerium.records.id = $2 OR " ["x"; "y"],
     Some "unsupported equals filter: [nope]") /\
  addFilterExpressionToQuery "pomerium" "records" (Buffers "" [])
    (AndFilterExpression
       ([EqualsFilterExpression ["type"] "x"]
          ++ OrFilterExpression
               [EqualsFilterExpression ["id"] "y";
                EqualsFilterExpression ["nope"] "z"]
          :: [EqualsFilterExpression ["id"] "w"]))
  = (Buffers
       "( pomerium.records.type = $1 AND ( pomerium.records.id = $2 OR "
       ["x"; "y"],
     Some "unsupported equals filter: [nope]").
Proof.
  split; [reflexivity|]. split; [reflexivity|].
  exact (proj1 (proj2 (call_only_appends string "pomerium" "records")
                  (Buffers "" [])
                  [EqualsFilterExpression ["type"] "x"]
                  (OrFilterExpression
                     [EqualsFilterExpression ["id"] "y";
                      EqualsFilterExpression ["nope"] "z"])
                  [EqualsFilterExpression ["id"] "w"]
                  _ _ _ _ eq_refl eq_refl)).
Defined.

Lemma compound_error_is_first_failing_child_witness :
  (addFilterExpressionToQuery "pomerium" "records" (Buffers "WHERE " ["k"])
     (AndFilterExpression
        [EqualsFilterExpression ["type"] "x";
         OrFilterExpression [OtherFilterExpression "<nil>"];
         EqualsFilterExpression ["id"] "y"])
   = (Buffers "WHERE ( pomerium.records.type = $2 AND ( " ["k"; "x"],
      Some "unsupported filter expression: <nil>") \/
   addFilterExpressionToQuery "pomerium" "records" (Buffers "WHERE " ["k"])
     (OrFilterExpression
        [EqualsFilterExpression ["type"] "x";
         OrFilterExpression [OtherFilterExpression "<nil>"];
         EqualsFilterExpression ["id"] "y"])
   = (Buffers "WHERE ( pomerium.records.type = $2 OR ( " ["k"; "x"],
      Some "unsupported filter expression: <nil>")) /\
  exists pre c post frags a1 bc,
    [EqualsFilterExpression ["type"] "x";
     OrFilterExpression [OtherFilterExpression "<nil>"];
     EqualsFilterExpression ["id"] "y"]
    = (pre ++ c :: post)%list /\
    compile_children "pomerium" "records" ["k"] pre = Some (frags, a1) /\
    addFilterExpressionToQuery "pomerium" "records" (Buffers "" a1) c
    = (bc, Some "unsupported filter expression: <nil>").
Proof.
  assert (H : addFilterExpressionToQuery "pomerium" "records"
                (Buffers "WHERE " ["k"])
                (AndFilterExpression
                   [EqualsFilterExpression ["type"] "x";
                    OrFilterExpression [OtherFilterExpression "<nil>"];
                    EqualsFilterExpression ["id"] "y"])
              = (Buffers "WHERE ( pomerium.records.type = $2 AND ( "
                   ["k"; "x"],
                 Some "unsupported filter expression: <nil>"))
    by reflexivity.
  split; [left; exact H|].
  exact (compound_error_is_first_failing_child string "pomerium" "records"
           _ (Buffers "WHERE " ["k"]) _ _ (or_introl H)).
Defined.

Lemma appended_text_parentheses_witness :
  paren_free "pomerium" = true /\
  paren_free "records" = true /\
  exists frag k,
    query (fst (addFilterExpressionToQuery "pomerium" "records"
                  (Buffers "WHERE " ["k"])
                  (AndFilterExpression
                     [EqualsFilterExpression ["type"] "x";
                      OrFilterExpression [OtherFilterExpression "<nil>"]])))
    = "WHERE " ++ frag /\
    (forall d, paren_depth d frag = Some (d + k)) /\
    1 <= k.
Proof.
  split; [reflexivity|]. split; [reflexivity|].
  exact (appended_text_parentheses string "pomerium" "records"
           eq_refl eq_refl
           (AndFilterExpression
              [EqualsFilterExpression ["type"] "x";
               OrFilterExpression [OtherFilterExpression "<nil>"]])
           (Buffers "WHERE " ["k"])).
Defined.

Lemma partial_text_numbers_partial_arguments_witness :
  dollar_free "pomerium" = true /\
  dollar_free "records" = true /\
  addFilterExpressionToQuery "pomerium" "records" (Buffers "WHERE " ["k"])
    (AndFilterExpression
       [EqualsFilterExpression ["type"] "x";
        OrFilterExpression
          [EqualsFilterExpression ["$index"] "y";
           EqualsFilterExpression ["nope"] "z"];
        EqualsFilterExpression ["id"] "w"])
  = (Buffers
       "WHERE ( pomerium.records.type = $2 AND ( pomerium.records.index_cidr >>= $3 OR "
       ["k"; "x"; "y"],
     Some "unsupported equals filter: [nope]") /\
  exists frag news,
    "WHERE ( pomerium.records.type = $2 AND ( pomerium.records.index_cidr >>= $3 OR "
    = "WHERE " ++ frag /\
    ["k"; "x"; "y"] = (["k"] ++ news)%list /\
    placeholders frag = seq (1 + 1) (length news).
Proof.
  split; [reflexivity|]. split; [reflexivity|]. split; [reflexivity|].
  exact (partial_text_numbers_partial_arguments string "pomerium" "records"
           eq_refl eq_refl
           (AndFilterExpression
              [EqualsFilterExpression ["type"] "x";
               OrFilterExpression
                 [EqualsFilterExpression ["$index"] "y";
                  EqualsFilterExpression ["nope"] "z"];
               EqualsFilterExpression ["id"] "w"])
           (Buffers "WHERE " ["k"]) _ _ eq_refl).
Defined.

Lemma error_names_a_leaf_of_the_tree_witness :
  snd (addFilterExpressionToQuery "pomerium" "records" (Buffers "" [])
         (AndFilterExpression
            [EqualsFilterExpression ["type"] "x";
             OrFilterExpression
               [EqualsFilterExpression ["a"; "b"] "y";
                OtherFilterExpression "<nil>"]]))
  = Some "unsupported equals filter: [a b]" /\
  ((exists Fields (Value : string),
      In (LeafEquals Fields Value)
         (leaves (AndFilterExpression
                    [EqualsFilterExpression ["type"] "x";
                     OrFilterExpression
                       [EqualsFilterExpression ["a"; "b"] "y";
                        OtherFilterExpression "<nil>"]])) /\
      supported_key (strings_Join Fields ".") = false /\
      "unsupported equals filter: [a b]" = Errorf_unsupported_equals Fields /\
      forall dynamic_type,
        "unsupported equals filter: [a b]"
        <> Errorf_unsupported_expression dynamic_type) \/
   (exists dynamic_type,
      In (@LeafOther string dynamic_type)
         (leaves (AndFilterExpression
                    [EqualsFilterExpression ["type"] "x";
                     OrFilterExpression
                       [EqualsFilterExpression ["a"; "b"] "y";
                        OtherFilterExpression "<nil>"]])) /\
      "unsupported equals filter: [a b]"
      = Errorf_unsupported_expression dynamic_type /\
      forall Fields,
        "unsupported equals filter: [a b]"
        <> Errorf_unsupported_equals Fields)).
Proof.
  split; [reflexivity|].
  exact (error_names_a_leaf_of_the_tree string "pomerium" "records"
           (AndFilterExpression
              [EqualsFilterExpression ["type"] "x";
               OrFilterExpression
                 [EqualsFilterExpression ["a"; "b"] "y";
                  OtherFilterExpression "<nil>"]])
           (Buffers "" []) _ eq_refl).
Defined.
